(** * HMV Fair Quote Validation Tool: a shallow embedding of [app.py]

    The data pipeline of [app.py] (normalisation, similarity, clustering,
    query matching and the decision classifier) embedded in Rocq.

    Conventions of the embedding:
    - text is [list ascii] internally and [string] at the interfaces; the
      character classes of Python's [re] and [str] methods are given for
      ASCII; bytes above 127 are opaque symbols (not word, digit or space);
    - floating-point numbers are exact rationals [Q];
    - a dataframe is a list of records, one per row, in row order;
    - a spreadsheet cell of text is [CNaN] (missing) or [CStr s]. *)

From Stdlib Require Import List String Ascii Bool Arith Lia ZArith QArith.
From Stdlib Require Import Permutation Sorted Qround Qabs Lqa.
Import ListNotations.
Open Scope nat_scope.

(* ------------------------------------------------------------------ *)
(** ** Characters *)

Module Chars.

Definition code (c : ascii) : nat := nat_of_ascii c.

Definition is_digit (c : ascii) : bool := (48 <=? code c) && (code c <=? 57).
Definition is_upper (c : ascii) : bool := (65 <=? code c) && (code c <=? 90).
Definition is_lower (c : ascii) : bool := (97 <=? code c) && (code c <=? 122).

(** [\w] of Python's [re]: letters, digits and underscore. *)
Definition is_word (c : ascii) : bool :=
  is_digit c || is_upper c || is_lower c || (code c =? 95).

(** [\s] of [re] and [str.isspace]: [\t \n \v \f \r], the separators
    [\x1c]..[\x1f] and the space. *)
Definition is_space (c : ascii) : bool :=
  ((9 <=? code c) && (code c <=? 13)) || ((28 <=? code c) && (code c <=? 32)).

(** The character class [[-/]] of the date pattern. *)
Definition is_sep (c : ascii) : bool := (code c =? 45) || (code c =? 47).

(** [str.upper] on one character. *)
Definition upper (c : ascii) : ascii :=
  if is_lower c then ascii_of_nat (code c - 32) else c.

(** What the date pattern distinguishes about a character. *)
Inductive cls := Digit | Sep | OtherWord | Other.

Definition cls_of (c : ascii) : cls :=
  if is_digit c then Digit
  else if is_sep c then Sep
  else if is_word c then OtherWord
  else Other.

End Chars.

(* ------------------------------------------------------------------ *)
(** ** Text normaliser: [normalize_text] *)

Module Text.
Import Chars.

(** A spreadsheet cell read by pandas: missing ([NaN]) or some text. *)
Inductive cell := CNaN | CStr (s : string).

(** *** The date pattern [\b\d{1,2}[-/]\d{1,2}[-/]\d{2,4}\b]

    Once the first digit is read the pattern is deterministic: the
    backtracking of [\d{1,2}] and [\d{2,4}] can only succeed on maximal
    digit runs, because a separator or a word boundary must follow them.
    The states say how much has been read: [A]/[B]/[C] for the three
    digit groups, the number for the digits read in the group ([B0] and
    [C0] right after a separator). *)
Inductive dstate := A1 | A2 | B0 | B1 | B2 | C0 | C1 | C2 | C3 | C4.

Inductive dres := DNext (st : dstate) | DAccept | DFail.

(** One step on the next character.  [DAccept] means the closing [\b] holds
    before this character, which is not part of the match. *)
Definition dstep (st : dstate) (k : cls) : dres :=
  match st, k with
  | A1, Digit => DNext A2
  | A1, Sep => DNext B0
  | A2, Sep => DNext B0
  | B0, Digit => DNext B1
  | B1, Digit => DNext B2
  | B1, Sep => DNext C0
  | B2, Sep => DNext C0
  | C0, Digit => DNext C1
  | C1, Digit => DNext C2
  | C2, Digit => DNext C3
  | C2, OtherWord => DFail
  | C2, _ => DAccept
  | C3, Digit => DNext C4
  | C3, OtherWord => DFail
  | C3, _ => DAccept
  | C4, Digit => DFail
  | C4, OtherWord => DFail
  | C4, _ => DAccept
  | _, _ => DFail
  end.

(** At the end of the text [\b] holds after a digit. *)
Definition dfinal (st : dstate) : bool :=
  match st with C2 | C3 | C4 => true | _ => false end.

(** Run the pattern from state [st]; [last] is the last character read.
    On success: the last character of the match and the text after it. *)
Fixpoint dmatch (st : dstate) (last : ascii) (s : list ascii)
  : option (ascii * list ascii) :=
  match s with
  | [] => if dfinal st then Some (last, []) else None
  | c :: r =>
      match dstep st (cls_of c) with
      | DNext st' => dmatch st' c r
      | DAccept => Some (last, s)
      | DFail => None
      end
  end.

(** The opening [\b] before a digit: the previous character of the
    searched text is not a word character, or there is none. *)
Definition bnd (prev : option ascii) : bool :=
  match prev with
  | None => true
  | Some p => match cls_of p with Digit | OtherWord => false | _ => true end
  end.

(** Does the date pattern match at this position of the text?  [prev] is the
    character before the position in the searched text. *)
Definition date_at (prev : option ascii) (s : list ascii)
  : option (ascii * list ascii) :=
  match s with
  | [] => None
  | c :: r => if bnd prev && is_digit c then dmatch A1 c r else None
  end.

(** [re.sub(pattern, '', text)]: scan left to right; at a match drop it and
    go on after it, else keep the character and go on with the next one.
    The pattern sees the original text, so [prev] is the previous character
    of the input, dropped or not.  [fuel] bounds the scan (each step consumes
    at least one character). *)
Fixpoint sub_dates (fuel : nat) (prev : option ascii) (s : list ascii)
  : list ascii :=
  match fuel with
  | O => s
  | S f =>
      match s with
      | [] => []
      | c :: r =>
          match date_at prev s with
          | Some (l, rest) => sub_dates f (Some l) rest
          | None => c :: sub_dates f (Some c) r
          end
      end
  end.

Definition remove_dates (s : list ascii) : list ascii :=
  sub_dates (List.length s) None s.

(** [re.sub(r'\s+', ' ', text)]: every run of whitespace becomes one space.
    [in_run] says the previous character was whitespace. *)
Fixpoint sub_ws (in_run : bool) (s : list ascii) : list ascii :=
  match s with
  | [] => []
  | c :: r =>
      if is_space c then
        if in_run then sub_ws true r else " "%char :: sub_ws true r
      else c :: sub_ws false r
  end.

(** [str.strip()]. *)
Fixpoint lstrip (s : list ascii) : list ascii :=
  match s with
  | [] => []
  | c :: r => if is_space c then lstrip r else s
  end.

Definition rstrip (s : list ascii) : list ascii := rev (lstrip (rev s)).

Definition strip (s : list ascii) : list ascii := rstrip (lstrip s).

(** The body of [normalize_text] after [str(text).upper()]. *)
Definition clean_upper (u : list ascii) : list ascii :=
  strip (sub_ws false (remove_dates u)).

(** [normalize_text(text)] (app.py, lines 66-72):
<<
    if pd.isna(text): return ""
    text = str(text).upper()
    text = re.sub(r'\b\d{1,2}[-/]\d{1,2}[-/]\d{2,4}\b', '', text)
    text = re.sub(r'\s+', ' ', text).strip()
>> *)
Definition normalize_text (x : cell) : string :=
  match x with
  | CNaN => ""
  | CStr t => string_of_list_ascii (clean_upper (map upper (list_ascii_of_string t)))
  end.

(** *** Predicates used to state facts about the normaliser *)

(** No position of [s] starts a match of the date pattern ([prev] is the
    character before [s]). *)
Fixpoint nodate (prev : option ascii) (s : list ascii) : Prop :=
  match s with
  | [] => True
  | c :: r => date_at prev s = None /\ nodate (Some c) r
  end.

(** Whitespace in canonical form: every whitespace character is a single
    space not preceded by whitespace ([b]: the previous one was). *)
Fixpoint ws_canon (b : bool) (s : list ascii) : Prop :=
  match s with
  | [] => True
  | c :: r =>
      if is_space c then c = " "%char /\ b = false /\ ws_canon true r
      else ws_canon false r
  end.

(** The text after a match: empty or starting with a non-word character. *)
Definition head_ok (s : list ascii) : Prop :=
  match s with [] => True | y :: _ => bnd (Some y) = true end.

(** A date-like string: 1-2 digits, [-] or [/], 1-2 digits, [-] or [/],
    2-4 digits. *)
Definition date_like (d : list ascii) : Prop :=
  exists d1 s1 d2 s2 d3,
    d = d1 ++ [s1] ++ d2 ++ [s2] ++ d3 /\
    Forall (fun c => is_digit c = true) (d1 ++ d2 ++ d3) /\
    is_sep s1 = true /\ is_sep s2 = true /\
    1 <= List.length d1 <= 2 /\ 1 <= List.length d2 <= 2 /\
    2 <= List.length d3 <= 4.

(** The last character of [pre], or [p] when [pre] is empty. *)
Fixpoint last_opt (p : option ascii) (pre : list ascii) : option ascii :=
  match pre with [] => p | c :: r => last_opt (Some c) r end.

(** [pre] ends with a word character. *)
Definition ends_in_word (pre : list ascii) : Prop :=
  match last_opt None pre with Some c => is_word c = true | None => False end.

(** [post] starts with a word character. *)
Definition starts_with_word (post : list ascii) : Prop :=
  match post with c :: _ => is_word c = true | [] => False end.

End Text.

(* ------------------------------------------------------------------ *)
(** ** [difflib.SequenceMatcher] and [semantic_overlap] *)

Module Difflib.
Import Chars.

(** [str.split()] without argument: the maximal runs of non-whitespace
    characters ([cur] is the current run, reversed). *)
Fixpoint split_aux (cur : list ascii) (s : list ascii) : list (list ascii) :=
  match s with
  | [] => match cur with [] => [] | _ => [rev cur] end
  | c :: r =>
      if is_space c then
        match cur with [] => split_aux [] r | _ => rev cur :: split_aux [] r end
      else split_aux (c :: cur) r
  end.

Definition py_split (s : string) : list string :=
  map string_of_list_ascii (split_aux [] (list_ascii_of_string s)).

(** [SequenceMatcher(None, a, b)] on two token sequences. *)
Section SequenceMatcher.
Variables a b : list string.

Definition tok_a (i : nat) : string := nth i a ""%string.
Definition tok_b (j : nat) : string := nth j b ""%string.

(** [__chain_b]: [b2j] maps a token to the ascending list of its positions
    in [b]; no junk ([isjunk] is [None]); with [autojunk] and [len(b) >= 200]
    a token occurring more than [len(b) // 100 + 1] times is popular and
    removed from [b2j]. *)
Definition indices_of (x : string) : list nat :=
  filter (fun j => String.eqb (tok_b j) x) (seq 0 (List.length b)).

Definition popular (x : string) : bool :=
  (200 <=? List.length b) &&
  (List.length b / 100 + 1 <? List.length (indices_of x)).

Definition b2j (x : string) : list nat :=
  if popular x then [] else indices_of x.

(** The dictionary [j2len] as an association list; [lookup] is
    [j2len.get(j, 0)]. *)
Fixpoint lookup (j : nat) (m : list (nat * nat)) : nat :=
  match m with
  | [] => 0
  | (j', k) :: r => if j =? j' then k else lookup j r
  end.

(** [j2lenget(j-1, 0)]: for [j = 0] the key [-1] is never present. *)
Definition j2len_get (m : list (nat * nat)) (j : nat) : nat :=
  match j with O => 0 | S j' => lookup j' m end.

(** The inner loop of [find_longest_match] for row [i]:
<<
    for j in b2j.get(a[i], nothing):
        if j < blo: continue
        if j >= bhi: break
        k = newj2len[j] = j2lenget(j-1, 0) + 1
        if k > bestsize:
            besti, bestj, bestsize = i-k+1, j-k+1, k
>> *)
Fixpoint flm_row (blo bhi i : nat) (j2len : list (nat * nat)) (js : list nat)
    (newj2len : list (nat * nat)) (best : nat * nat * nat)
  : list (nat * nat) * (nat * nat * nat) :=
  match js with
  | [] => (newj2len, best)
  | j :: js' =>
      if j <? blo then flm_row blo bhi i j2len js' newj2len best
      else if bhi <=? j then (newj2len, best)
      else
        let k := j2len_get j2len j + 1 in
        let best' :=
          match best with
          | (besti, bestj, bestsize) =>
              if bestsize <? k then (i + 1 - k, j + 1 - k, k) else best
          end in
        flm_row blo bhi i j2len js' ((j, k) :: newj2len) best'
  end.

(** The outer loop [for i in range(alo, ahi)], [cnt] rows from row [i]. *)
Fixpoint flm_rows (blo bhi cnt i : nat) (j2len : list (nat * nat))
    (best : nat * nat * nat) : nat * nat * nat :=
  match cnt with
  | O => best
  | S c =>
      let '(newj2len, best') := flm_row blo bhi i j2len (b2j (tok_a i)) [] best in
      flm_rows blo bhi c (S i) newj2len best'
  end.

(** Extending the best match backwards by equal elements ([isbjunk] is
    always false: there is no junk). *)
Fixpoint ext_back (fuel alo blo besti bestj bestsize : nat) : nat * nat * nat :=
  match fuel with
  | O => (besti, bestj, bestsize)
  | S f =>
      if (alo <? besti) && (blo <? bestj) &&
         String.eqb (tok_a (besti - 1)) (tok_b (bestj - 1))
      then ext_back f alo blo (besti - 1) (bestj - 1) (bestsize + 1)
      else (besti, bestj, bestsize)
  end.

(** Extending it forwards. *)
Fixpoint ext_fwd (fuel ahi bhi besti bestj bestsize : nat) : nat * nat * nat :=
  match fuel with
  | O => (besti, bestj, bestsize)
  | S f =>
      if (besti + bestsize <? ahi) && (bestj + bestsize <? bhi) &&
         String.eqb (tok_a (besti + bestsize)) (tok_b (bestj + bestsize))
      then ext_fwd f ahi bhi besti bestj (bestsize + 1)
      else (besti, bestj, bestsize)
  end.

(** [find_longest_match(alo, ahi, blo, bhi)]; the two loops that extend by
    junk elements never run since there is no junk. *)
Definition find_longest_match (alo ahi blo bhi : nat) : nat * nat * nat :=
  let '(i, j, k) := flm_rows blo bhi (ahi - alo) alo [] (alo, blo, 0) in
  let '(i, j, k) := ext_back (i - alo) alo blo i j k in
  ext_fwd (ahi - (i + k)) ahi bhi i j k.

(** [get_matching_blocks] collects [find_longest_match] of the whole range
    and recursively of the parts left and right of each block (through a
    work list, whose order does not change the set of blocks); [ratio] only
    uses the sum of the block sizes, computed here by the same recursion.
    [fuel] bounds its depth: each block has size at least 1. *)
Fixpoint matched (fuel alo ahi blo bhi : nat) : nat :=
  match fuel with
  | O => 0
  | S f =>
      let '(i, j, k) := find_longest_match alo ahi blo bhi in
      if k =? 0 then 0
      else k
           + (if (alo <? i) && (blo <? j) then matched f alo i blo j else 0)
           + (if (i + k <? ahi) && (j + k <? bhi)
              then matched f (i + k) ahi (j + k) bhi else 0)
  end.

(** [ratio()]: [2.0 * matches / (len(a) + len(b))], or [1.0] when both are
    empty. *)
Definition ratio : Q :=
  let m := matched (S (List.length a)) 0 (List.length a) 0 (List.length b) in
  let t := List.length a + List.length b in
  if t =? 0 then 1%Q else (Z.of_nat (2 * m) # Pos.of_nat t)%Q.

(** Auxiliary definitions for the proofs. [processed js] are the entries of
    [js] that the row loop visits, up to its [break]; [upd] is its update
    of [best]; [runlen t i j] is the value it stores in [newj2len[j]] at row
    [i], [t] rows after [alo]: the length of the run of equal elements
    ending at [(i, j)] within the current ranges. *)
Definition mem (j : nat) (l : list nat) : bool := existsb (Nat.eqb j) l.

Fixpoint processed (blo bhi : nat) (js : list nat) : list nat :=
  match js with
  | [] => []
  | j :: js' =>
      if j <? blo then processed blo bhi js'
      else if bhi <=? j then []
      else j :: processed blo bhi js'
  end.

Definition upd (i : nat) (best : nat * nat * nat) (jk : nat * nat)
  : nat * nat * nat :=
  let '(j, k) := jk in
  match best with
  | (besti, bestj, bestsize) =>
      if bestsize <? k then (i + 1 - k, j + 1 - k, k) else best
  end.

Fixpoint runlen (blo bhi t i j : nat) : nat :=
  if (blo <=? j) && (j <? bhi) && mem j (b2j (tok_a i)) then
    match j with
    | O => 0
    | S j' => match t with O => 0 | S t' => runlen blo bhi t' (i - 1) j' end
    end + 1
  else 0.

Definition rprev (blo bhi t i j : nat) : nat :=
  match t with O => 0 | S t' => runlen blo bhi t' (i - 1) j end.

End SequenceMatcher.

(** [semantic_overlap(a, b)] (app.py, lines 120-124):
<<
    if not a or not b: return 0
    matcher = difflib.SequenceMatcher(None, a.split(), b.split())
    return matcher.ratio() * 100
>> *)
Definition semantic_overlap (sa sb : string) : Q :=
  if String.eqb sa "" || String.eqb sb "" then 0%Q
  else (ratio (py_split sa) (py_split sb) * 100)%Q.

(** Bounds of a block [(i, j, k)] within the ranges [alo..ahi], [blo..bhi]. *)
Definition inb (alo ahi blo bhi : nat) (t : nat * nat * nat) : Prop :=
  let '(i, j, k) := t in alo <= i /\ i + k <= ahi /\ blo <= j /\ j + k <= bhi.

End Difflib.

(* ------------------------------------------------------------------ *)
(** ** [get_decision_conclusion] *)

(** Hours are Python floats; they are modelled by exact rationals, so the
    comparisons below are the exact ones (the float rounding of [/] and
    [* 100] is not modelled). A missing value (NaN) is [None]. *)
Module Decision.
Local Open Scope string_scope.

Definition Qltb (p q : Q) : bool :=
  match Qcompare p q with Lt => true | _ => false end.

(** Decimal digits of a non-negative integer; [fuel] bounds their number. *)
Fixpoint digits_aux (fuel : nat) (n : Z) (acc : string) : string :=
  match fuel with
  | O => acc
  | S f =>
      let acc' := String (ascii_of_nat (48 + Z.to_nat (n mod 10))) acc in
      if (n <? 10)%Z then acc' else digits_aux f (n / 10)%Z acc'
  end.

Definition z_digits (n : Z) : string :=
  digits_aux (S (Pos.size_nat (Z.to_pos n))) n "".

(** Rounding to an integer, halves to even (Python's float formatting
    rounds the exact value correctly, ties to even). *)
Definition round_half_even (q : Q) : Z :=
  let f := Qfloor q in
  let r := (q - inject_Z f)%Q in
  if Qltb r (1 # 2) then f
  else if Qltb (1 # 2) r then (f + 1)%Z
  else if Z.even f then f else (f + 1)%Z.

(** [f"{x:.1f}"]: a minus sign for a negative value (also when it rounds to
    [0.0]), the integer part, a point and one decimal. *)
Definition fmt1 (x : Q) : string :=
  let n := round_half_even (Qabs x * 10) in
  ((if Qltb x 0 then "-" else "") ++ z_digits (n / 10) ++ "." ++
   z_digits (n mod 10))%string.

Record conclusion_t := mk_conclusion {
  conclusion : string;
  color : string;
  percent_display : string;
  diff_class : string
}.

Definition msg_no_data : string :=
  "No historical data available — manual review recommended.".
Definition msg_below : string :=
  "FAIR QUOTE: Supplier below historic average. Consider approving.".
Definition msg_range : string :=
  "IN EXPECTED RANGE (±5%). Consider approving.".
Definition msg_review : string :=
  "HIGHER THAN HISTORIC — Needs BP review.".

Definition no_data : conclusion_t :=
  mk_conclusion msg_no_data "#b0202e" "N/A (no historical data)" "diff-neutral".

(** app.py, lines 126-152; [fair == 0 or pd.isna(fair)] is the [None] case
    and the [Qeq_bool fair 0] test. *)
Definition get_decision_conclusion (supplier : Q) (fair : option Q)
  : conclusion_t :=
  match fair with
  | None => no_data
  | Some f =>
      if Qeq_bool f 0 then no_data
      else
        let percent_diff := ((supplier - f) / f * 100)%Q in
        let diff_class :=
          if Qltb percent_diff 0 then "diff-negative"
          else if Qle_bool (Qabs percent_diff) 5 then "diff-neutral"
          else "diff-positive" in
        let sign := if Qle_bool 0 percent_diff then "+" else "" in
        let percent_display := (sign ++ fmt1 percent_diff ++ "%")%string in
        if Qltb supplier f then
          mk_conclusion msg_below "#22aa58" percent_display diff_class
        else if Qle_bool (Qabs (supplier - f) / f) (5 # 100) then
          mk_conclusion msg_range "#222f3e" percent_display diff_class
        else
          mk_conclusion msg_review "#b0202e" percent_display diff_class
  end.

End Decision.

(* ------------------------------------------------------------------ *)
(** ** The reference table (app.py, lines 74-97) *)

Module Table.
Import Chars Text Difflib Decision.
Local Open Scope string_scope.

(** [str(x)] of a cell: a NaN cell is the float [nan]. *)
Definition py_str (x : cell) : string :=
  match x with CNaN => "nan" | CStr s => s end.

Fixpoint is_prefix (p s : list ascii) : bool :=
  match p, s with
  | [], _ => true
  | c :: p', d :: s' => Ascii.eqb c d && is_prefix p' s'
  | _ :: _, [] => false
  end.

(** [s.replace(old, "")] for a non-empty [old]: the occurrences are removed
    left to right, without overlap; [fuel] is the length of [s]. *)
Fixpoint remove_all (fuel : nat) (old s : list ascii) : list ascii :=
  match fuel with
  | O => s
  | S f =>
      match s with
      | [] => []
      | c :: r =>
          if is_prefix old s then remove_all f old (skipn (List.length old) s)
          else c :: remove_all f old r
      end
  end.

Definition remove_ref (s : string) : string :=
  let l := list_ascii_of_string s in
  string_of_list_ascii
    (remove_all (List.length l) (list_ascii_of_string "(FOR REFERENCE ONLY)") l).

(** Line 75: [normalize_text(str(x).replace("(FOR REFERENCE ONLY)", ""))]. *)
Definition norm_disc_of (x : cell) : string :=
  normalize_text (CStr (remove_ref (py_str x))).

(** Line 74. *)
Definition norm_corr_of (x : cell) : string := normalize_text x.

(** Line 76 (and line 157 for the query). *)
Definition combine_key (nd nc : string) : string := nd ++ " | " ++ nc.

Record record := mk_record {
  description : cell;
  corrective_action : cell;
  total_hours : option Q
}.

Definition key_of (r : record) : string :=
  combine_key (norm_disc_of (description r)) (norm_corr_of (corrective_action r)).

(** [Series.unique()]: the distinct values in order of first occurrence. *)
Fixpoint unique_aux (seen : list string) (l : list string) : list string :=
  match l with
  | [] => []
  | k :: l' =>
      if existsb (String.eqb k) seen then unique_aux seen l'
      else k :: unique_aux (k :: seen) l'
  end.

Definition unique (l : list string) : list string := unique_aux [] l.

(** Lines 79-91. The dict [clusters] is an association list in insertion
    order (a Python dict keeps it, and appending to a value does not change
    it); [token_set_ratio] is [fuzz.token_set_ratio]. *)
Section Clustering.
Variable token_set_ratio : string -> string -> Z.

(** [for rep in clusters: if fuzz.token_set_ratio(key, rep) >= 90: ...]. *)
Fixpoint find_rep (key : string) (cl : list (string * list string))
  : option string :=
  match cl with
  | [] => None
  | (rep, _) :: cl' =>
      if (90 <=? token_set_ratio key rep)%Z then Some rep else find_rep key cl'
  end.

(** [clusters[rep].append(key)]. *)
Definition append_to (rep key : string) (cl : list (string * list string))
  : list (string * list string) :=
  map (fun c => if String.eqb (fst c) rep then (fst c, (snd c ++ [key])%list) else c) cl.

Definition add_key (cl : list (string * list string)) (key : string)
  : list (string * list string) :=
  if String.eqb key "" then cl
  else match find_rep key cl with
       | Some rep => append_to rep key cl
       | None => (cl ++ [(key, [key])])%list
       end.

Definition clustering (keys : list string) : list (string * list string) :=
  fold_left add_key (unique keys) [].

End Clustering.

(** [key_to_rep = {k: r for r, lst in clusters.items() for k in lst}] and
    [.map(key_to_rep)]: a later pair overrides an earlier one; a key that is
    not in the dict maps to NaN ([None]). *)
Definition key_pairs (cl : list (string * list string)) : list (string * string) :=
  List.concat (map (fun c => map (fun k => (k, fst c)) (snd c)) cl).

Definition key_to_rep (cl : list (string * list string)) (k : string)
  : option string :=
  match find (fun p => String.eqb (fst p) k) (rev (key_pairs cl)) with
  | Some p => Some (snd p)
  | None => None
  end.

(** [df.groupby('Cluster Key')['Total Hours']]: the rows with a NaN cluster
    key are dropped; the groups are kept in an association list (the order
    of the groups does not matter, the result is only merged by key). *)
Fixpoint group_insert (k : string) (h : option Q)
    (g : list (string * list (option Q))) : list (string * list (option Q)) :=
  match g with
  | [] => [(k, [h])]
  | (k', hs) :: g' =>
      if String.eqb k' k then (k', (hs ++ [h])%list) :: g' else (k', hs) :: group_insert k h g'
  end.

Definition groupby (rows : list (option string * option Q))
  : list (string * list (option Q)) :=
  fold_left (fun g p => match fst p with
                        | None => g
                        | Some k => group_insert k (snd p) g
                        end) rows [].

Fixpoint somes (hs : list (option Q)) : list Q :=
  match hs with
  | [] => []
  | Some h :: hs' => h :: somes hs'
  | None :: hs' => somes hs'
  end.

Definition Qsum (xs : list Q) : Q := fold_right Qplus 0%Q xs.

(** [.agg(['mean','count'])]: both skip NaN; the mean of no value is NaN. *)
Definition mean_count (hs : list (option Q)) : option Q * nat :=
  let xs := somes hs in
  (match xs with
   | [] => None
   | _ => Some (Qsum xs / inject_Z (Z.of_nat (List.length xs)))%Q
   end, List.length xs).

Definition hours_table (rows : list (option string * option Q))
  : list (string * (option Q * nat)) :=
  map (fun g => (fst g, mean_count (snd g))) (groupby rows).

Fixpoint assoc {A : Type} (k : string) (l : list (string * A)) : option A :=
  match l with
  | [] => None
  | (k', v) :: l' => if String.eqb k' k then Some v else assoc k l'
  end.

(** [df.merge(hours, on='Cluster Key', how='left')]: a row whose cluster key
    is NaN, or absent from [hours], gets NaN in both columns. *)
Definition merged (hours : list (string * (option Q * nat))) (ck : option string)
  : option Q * option nat :=
  match ck with
  | None => (None, None)
  | Some k =>
      match assoc k hours with
      | Some (m, c) => (m, Some c)
      | None => (None, None)
      end
  end.

(** [.round(2)]: to the nearest hundredth, halves to even. *)
Definition round2 (q : Q) : Q := (round_half_even (q * 100) # 100)%Q.

Record row := mk_row {
  rec : record;
  norm_disc : string;
  norm_corr : string;
  combined_key : string;
  cluster_key : option string;
  historic : option Q;
  occurrences : option nat;
  fair_quote : option Q
}.

(** The data frame after line 97, one row per record, in order. *)
Definition build_table (token_set_ratio : string -> string -> Z)
    (recs : list record) : list row :=
  let cl := clustering token_set_ratio (map key_of recs) in
  let hours :=
    hours_table (map (fun r => (key_to_rep cl (key_of r), total_hours r)) recs) in
  map (fun r =>
         let ck := key_to_rep cl (key_of r) in
         let '(m, c) := merged hours ck in
         mk_row r (norm_disc_of (description r))
                (norm_corr_of (corrective_action r)) (key_of r) ck m c
                (option_map round2 m))
      recs.

End Table.

(* ------------------------------------------------------------------ *)
(** ** Matching a query (app.py, lines 155-174 and the tier branches) *)

Module Matcher.
Import Chars Text Difflib Decision Table.
Local Open Scope string_scope.

(** [semantic_overlap(a, b)] where [b] is a cell of a row that pandas may
    pass: a NaN is truthy, and [NaN.split()] raises ([None]). *)
Definition semantic_overlap_cell (a : string) (b : cell) : option Q :=
  if String.eqb a "" then Some 0%Q
  else match b with
       | CNaN => None
       | CStr s => Some (semantic_overlap a s)
       end.

(** [total_similarity(row)]: the discrepancy overlap, then the corrective
    one; an exception in either propagates. *)
Definition total_similarity_cell (nd nc : string) (d c : cell) : option Q :=
  match semantic_overlap_cell nd d, semantic_overlap_cell nc c with
  | Some x, Some y => Some ((x + y) / 2)%Q
  | _, _ => None
  end.

Definition total_similarity (nd nc : string) (r : row) : Q :=
  ((semantic_overlap nd (norm_disc r) + semantic_overlap nc (norm_corr r)) / 2)%Q.

Fixpoint map_opt {A B : Type} (f : A -> option B) (l : list A) : option (list B) :=
  match l with
  | [] => Some []
  | x :: l' =>
      match f x, map_opt f l' with
      | Some y, Some ys => Some (y :: ys)
      | _, _ => None
      end
  end.

(** Line 171, [df['Overlap'] = df.apply(total_similarity, axis=1)]; [None]
    is an exception. On a frame without rows, pandas calls the function once
    on a row of NaN to decide whether it reduces: if that call raises, apply
    returns a copy of the frame, and assigning a frame of several columns to
    the single column ['Overlap'] raises [ValueError]; if it returns a
    scalar, the result is an empty column. *)
Definition overlap_column (nd nc : string) (tbl : list row) : option (list Q) :=
  match tbl with
  | [] => match total_similarity_cell nd nc CNaN CNaN with
          | None => None
          | Some _ => Some []
          end
  | _ => map_opt (fun r => total_similarity_cell nd nc
                             (CStr (norm_disc r)) (CStr (norm_corr r))) tbl
  end.

Inductive tier := EXACT | APPROXIMATE | WEAK.

(** What a query puts on the page: the tier selected, the rows of the
    result table, the conclusion, and whether the run then stops with an
    exception (what was drawn before it stays on the page). *)
Record outcome := mk_outcome {
  selected : option tier;
  shown : list (row * Q);
  decision : option conclusion_t;
  raises : bool
}.

Section Query.
(** [sort_values(by='Overlap', ascending=False)], numpy's quicksort, is not
    stable: it is a parameter, assumed to return a permutation sorted by
    decreasing overlap. *)
Variable sort_desc : list (row * Q) -> list (row * Q).

(** Lines 155-290 for a submitted form: [None] is an exception raised
    before anything is drawn; when the form is not submitted with both
    texts, nothing is shown. The EXACT tier (lines 176-199) draws the
    conclusion and the metrics, then line 198 calls [st.success] with the
    keyword [unsafe_allow_html], which it does not take: a [TypeError]
    stops the run before the table of line 199, so no row is shown. The
    APPROXIMATE tier (lines 200-237) shows its rows and ends normally. The
    WEAK tier (lines 238-290) shows its row, then line 269 calls [st.info]
    with [unsafe_allow_html] and raises [TypeError] the same way. *)
Definition match_query (tbl : list row) (disc corr : string) (supplier : Q)
  : option outcome :=
  if String.eqb disc "" || String.eqb corr "" then Some (mk_outcome None [] None false)
  else
  let nd := normalize_text (CStr (remove_ref disc)) in
  let nc := normalize_text (CStr corr) in
  let ci := combine_key nd nc in
  match overlap_column nd nc tbl with
  | None => None
  | Some ov =>
      let scored := combine tbl ov in
      let exact := filter (fun p => String.eqb (combined_key (fst p)) ci) scored in
      let approx := filter (fun p => Qle_bool 55 (snd p) &&
                                     negb (String.eqb (combined_key (fst p)) ci))
                           scored in
      let top2 := firstn 2 (sort_desc approx) in
      let closest := firstn 1 (sort_desc (filter (fun p => Qltb (snd p) 55) scored)) in
      match exact, top2, closest with
      | p :: _, _, _ =>
          Some (mk_outcome (Some EXACT) []
                  (Some (get_decision_conclusion supplier (fair_quote (fst p)))) true)
      | [], p :: _, _ =>
          Some (mk_outcome (Some APPROXIMATE) top2
                  (Some (get_decision_conclusion supplier (fair_quote (fst p)))) false)
      | [], [], p :: _ =>
          Some (mk_outcome (Some WEAK) closest
                  (Some (get_decision_conclusion supplier (fair_quote (fst p)))) true)
      | [], [], [] => Some (mk_outcome None [] None false)
      end
  end.

End Query.

End Matcher.

(* ------------------------------------------------------------------ *)
(** ** Highlighting the words a row adds (app.py, lines 154-156) *)

Module Highlight.
Import Difflib.
Local Open Scope string_scope.

(** [sep.join(ws)]. *)
Fixpoint join (sep : string) (ws : list string) : string :=
  match ws with
  | [] => ""
  | [w] => w
  | w :: ws' => w ++ sep ++ join sep ws'
  end.

(** The markup put around a word that [ref] lacks. *)
Definition mark (w : string) : string :=
  "<b><span style='color:#e67e22'>" ++ w ++ "</span></b>".

(** [highlight_diff(text, ref)]:
<<
    ref_words = set(ref.split())
    return " ".join([f"<b>...{w}...</b>" if w not in ref_words else w
                     for w in text.split()])
>>
    the set [ref_words] is only used for membership, here the list of the
    words of [ref]. *)
Definition highlight_diff (text ref : string) : string :=
  let ref_words := py_split ref in
  join " " (map (fun w => if existsb (String.eqb w) ref_words then w else mark w)
                (py_split text)).

(** [" ".join] on words given as character lists. *)
Fixpoint joinl (l : list (list ascii)) : list ascii :=
  match l with
  | [] => []
  | [w] => w
  | w :: r => (w ++ " "%char :: joinl r)%list
  end.

End Highlight.

(* ================================================================== *)
(** * Proofs *)

(** ** The normaliser *)

Module TextFacts.
Import Chars Text.

(** Facts about single characters, checked on all 256 of them. *)
Ltac all_chars := intros [[] [] [] [] [] [] [] []]; vm_compute; intros; congruence.

Lemma space_cls : forall c, is_space c = true -> cls_of c = Other.
Proof. all_chars. Qed.

Lemma upper_idem : forall c, upper (upper c) = upper c.
Proof. all_chars. Qed.

Lemma bnd_some : forall c, bnd (Some c) = negb (is_word c).
Proof. all_chars. Qed.

Lemma digit_cls : forall c, is_digit c = true -> cls_of c = Digit.
Proof. all_chars. Qed.

Lemma cls_digit : forall c, cls_of c = Digit -> is_digit c = true.
Proof. all_chars. Qed.

Lemma sep_cls : forall c, is_sep c = true -> cls_of c = Sep.
Proof. all_chars. Qed.

Lemma bnd_digit : forall c, is_digit c = true -> bnd (Some c) = false.
Proof. all_chars. Qed.

Lemma bnd_cls : forall y, bnd (Some y) = true -> cls_of y = Sep \/ cls_of y = Other.
Proof. intros y; simpl; destruct (cls_of y); auto; discriminate. Qed.

(** *** The date scanner *)

Lemma dmatch_suffix : forall s st l l' rest,
  dmatch st l s = Some (l', rest) -> exists pre, s = pre ++ rest.
Proof.
  induction s as [|c r IH]; intros st l l' rest H; simpl in H.
  - destruct (dfinal st); inversion H; subst. exists []. reflexivity.
  - destruct (dstep st (cls_of c)) eqn:D; try discriminate.
    + destruct (IH _ _ _ _ H) as [pre ->]. exists (c :: pre). reflexivity.
    + inversion H; subst. exists []. reflexivity.
Qed.

Lemma dmatch_head_ok : forall s st l l' rest,
  dmatch st l s = Some (l', rest) -> head_ok rest.
Proof.
  induction s as [|c r IH]; intros st l l' rest H; simpl in H.
  - destruct (dfinal st); inversion H; subst. exact I.
  - destruct (dstep st (cls_of c)) eqn:D; try discriminate.
    + eapply IH; eauto.
    + inversion H; subst. simpl.
      destruct st, (cls_of c); simpl in D; try discriminate; reflexivity.
Qed.

Lemma date_at_suffix : forall prev c r l rest,
  date_at prev (c :: r) = Some (l, rest) -> List.length rest <= List.length r.
Proof.
  intros prev c r l rest H; simpl in H.
  destruct (bnd prev && is_digit c); [|discriminate].
  destruct (dmatch_suffix _ _ _ _ _ H) as [pre ->].
  rewrite length_app. lia.
Qed.

(** After a match the scanner output starts with a non-word character. *)
Lemma sub_dates_head_ok : forall f p s,
  head_ok s -> sub_dates f p s = [] \/
    exists y t, sub_dates f p s = y :: t /\ bnd (Some y) = true.
Proof.
  intros f p s H. destruct f as [|f]; simpl.
  - destruct s as [|y t]; [left; reflexivity|right; exists y, t; auto].
  - destruct s as [|y t]; [left; reflexivity|].
    unfold head_ok in H. right. exists y.
    assert (Hd : is_digit y = false).
    { destruct (is_digit y) eqn:E; auto. rewrite bnd_digit in H; auto. }
    simpl. rewrite Hd, andb_false_r. eauto.
Qed.

(** A state in which the previous character may have been a non-word
    character expects a digit. *)
Definition consistent (st : dstate) (prev : option ascii) : Prop :=
  bnd prev = true -> st = B0 \/ st = C0.

Lemma dstep_nonword : forall st k st',
  dstep st k = DNext st' -> k = Sep \/ k = Other -> st' = B0 \/ st' = C0.
Proof. intros [] [] st' H [E|E]; try discriminate; inversion H; auto. Qed.

(** A match in the scanner's output is already a match in its input. *)
Lemma sub_dates_transfer : forall f s prev st l,
  consistent st prev ->
  dmatch st l (sub_dates f prev s) <> None -> dmatch st l s <> None.
Proof.
  induction f as [|f IH]; intros s prev st l Hc H; [exact H|].
  destruct s as [|c r]; [exact H|].
  cbn [sub_dates] in H. destruct (date_at prev (c :: r)) as [[l0 rest]|] eqn:E.
  - exfalso. simpl in E.
    destruct (bnd prev) eqn:B; [|discriminate].
    destruct (is_digit c); [|discriminate].
    pose proof (dmatch_head_ok _ _ _ _ _ E) as Hh.
    destruct (Hc B) as [-> | ->];
    destruct (sub_dates_head_ok f (Some l0) rest Hh) as [Z | [y [t [Z Hy]]]];
    rewrite Z in H; simpl in H; try (apply H; reflexivity);
    destruct (bnd_cls y Hy) as [Cy|Cy]; rewrite Cy in H; apply H; reflexivity.
  - simpl in H |- *. destruct (dstep st (cls_of c)) eqn:D.
    + apply (IH r (Some c)); [|exact H].
      intros Hb. apply (dstep_nonword st (cls_of c)); [exact D|].
      apply bnd_cls; exact Hb.
    + discriminate.
    + exfalso; apply H; reflexivity.
Qed.

Lemma date_at_bnd : forall p q s, bnd p = bnd q -> date_at p s = date_at q s.
Proof. intros p q [|c r] H; simpl; [reflexivity|rewrite H; reflexivity]. Qed.

Lemma nodate_bnd : forall s p q, bnd p = bnd q -> nodate p s -> nodate q s.
Proof.
  intros [|c r] p q H N; cbn [nodate] in *; auto.
  destruct N as [N1 N2]. split; auto. rewrite <- (date_at_bnd p q); auto.
Qed.

(** The output of the scanner has no match of the pattern. *)
Lemma sub_dates_nodate : forall f s pin pout,
  List.length s <= f -> (bnd pin = bnd pout \/ head_ok s) ->
  nodate pout (sub_dates f pin s).
Proof.
  induction f as [|f IH]; intros s pin pout Hl Hc.
  - destruct s; simpl in *; [exact I|lia].
  - destruct s as [|c r]; [exact I|]. cbn [sub_dates].
    destruct (date_at pin (c :: r)) as [[l0 rest]|] eqn:E.
    + apply IH.
      * pose proof (date_at_suffix _ _ _ _ _ E). simpl in Hl. lia.
      * right. simpl in E. destruct (bnd pin && is_digit c); [|discriminate].
        eapply dmatch_head_ok; eauto.
    + cbn [nodate]. split.
      * destruct (date_at pout (c :: sub_dates f (Some c) r)) as [m|] eqn:E2;
          [exfalso|reflexivity].
        simpl in E2. destruct (bnd pout) eqn:Bo; [|discriminate].
        destruct (is_digit c) eqn:Dc; [|discriminate]. simpl in E2.
        assert (T : dmatch A1 c r <> None).
        { apply (sub_dates_transfer f r (Some c) A1 c).
          - intros Hb. rewrite bnd_digit in Hb; auto. discriminate.
          - rewrite E2. discriminate. }
        destruct Hc as [Hb|Hh].
        -- simpl in E. rewrite Hb, Dc in E. simpl in E. contradiction.
        -- unfold head_ok in Hh. rewrite bnd_digit in Hh; auto. discriminate.
      * apply IH; [simpl in Hl; lia|left; reflexivity].
Qed.

Lemma sub_dates_id : forall f s p, nodate p s -> sub_dates f p s = s.
Proof.
  induction f as [|f IH]; intros s p N; [reflexivity|].
  destruct s as [|c r]; [reflexivity|].
  destruct N as [N1 N2]. cbn [sub_dates]. rewrite N1. f_equal. apply IH; auto.
Qed.

Lemma remove_dates_nodate : forall u, nodate None (remove_dates u).
Proof. intros u. apply sub_dates_nodate; auto. Qed.

(** *** Whitespace *)

Lemma sub_ws_transfer : forall s st l,
  dmatch st l (sub_ws false s) <> None -> dmatch st l s <> None.
Proof.
  induction s as [|c r IH]; intros st l H; [exact H|].
  simpl in H. destruct (is_space c) eqn:Sp.
  - simpl. rewrite (space_cls c Sp). simpl in H.
    replace (cls_of " "%char) with Other in H by reflexivity.
    destruct (dstep st Other) eqn:D; [destruct st; discriminate|discriminate|exact H].
  - simpl in H |- *. destruct (dstep st (cls_of c)); auto. discriminate.
Qed.

Lemma sub_ws_nodate : forall s b pin pout,
  nodate pin s -> bnd pin = bnd pout -> (b = true -> bnd pout = true) ->
  nodate pout (sub_ws b s).
Proof.
  induction s as [|c r IH]; intros b pin pout N Hb Hr; [exact I|].
  destruct N as [N1 N2]. simpl sub_ws. destruct (is_space c) eqn:Sp.
  - assert (Bc : bnd (Some c) = true) by (simpl; rewrite space_cls; auto).
    destruct b.
    + apply (IH true (Some c)); auto. rewrite Bc; symmetry; auto.
    + cbn [nodate]. split; [simpl; rewrite andb_false_r; reflexivity|].
      apply (IH true (Some c)); auto.
  - cbn [nodate]. split.
    + destruct (date_at pout (c :: sub_ws false r)) as [m|] eqn:E2;
        [exfalso|reflexivity].
      simpl in E2. destruct (bnd pout && is_digit c) eqn:Bo; [|discriminate].
      apply (sub_ws_transfer r A1 c); [rewrite E2; discriminate|].
      simpl in N1. rewrite Hb, Bo in N1. exact N1.
    + apply (IH false (Some c)); auto. discriminate.
Qed.

Lemma dmatch_app_space : forall t w st l,
  (w = [] \/ exists y w', w = y :: w' /\ is_space y = true) ->
  dmatch st l t <> None -> dmatch st l (t ++ w) <> None.
Proof.
  induction t as [|c t IH]; intros w st l Hw H.
  - simpl in H |- *. destruct (dfinal st) eqn:F; [|exfalso; apply H; reflexivity].
    destruct Hw as [-> | [y [w' [-> Hy]]]]; simpl; [rewrite F; discriminate|].
    rewrite (space_cls y Hy). destruct st; simpl in F; try discriminate.
  - simpl in H |- *. destruct (dstep st (cls_of c)); auto. discriminate.
Qed.

Lemma nodate_app_space : forall t w p,
  (w = [] \/ exists y w', w = y :: w' /\ is_space y = true) ->
  nodate p (t ++ w) -> nodate p t.
Proof.
  induction t as [|c t IH]; intros w p Hw N; [exact I|].
  destruct N as [N1 N2]. split; [|eapply IH; eauto].
  destruct (date_at p (c :: t)) as [m|] eqn:E; [exfalso|reflexivity].
  simpl in E, N1. destruct (bnd p && is_digit c); [|discriminate].
  apply (dmatch_app_space t w A1 c Hw); [rewrite E; discriminate|exact N1].
Qed.

Lemma lstrip_split : forall s,
  exists ws, s = ws ++ lstrip s /\ Forall (fun c => is_space c = true) ws.
Proof.
  induction s as [|c r [ws [E F]]]; [exists []; auto|].
  simpl. destruct (is_space c) eqn:Sp.
  - exists (c :: ws). simpl. rewrite <- E. auto.
  - exists []. auto.
Qed.

Lemma rstrip_split : forall s, exists w,
  s = rstrip s ++ w /\
  (w = [] \/ exists y w', w = y :: w' /\ is_space y = true).
Proof.
  intros s. destruct (lstrip_split (rev s)) as [ws [E F]].
  exists (rev ws). split.
  - unfold rstrip. rewrite <- (rev_involutive s) at 1. rewrite E at 1. rewrite rev_app_distr.
    reflexivity.
  - destruct (rev ws) as [|y w'] eqn:R; [left; reflexivity|right].
    exists y, w'. split; auto.
    assert (In y (rev ws)) by (rewrite R; left; auto).
    rewrite <- in_rev in H. rewrite Forall_forall in F. auto.
Qed.

Lemma lstrip_nodate : forall s p, nodate p s -> bnd p = true -> nodate None (lstrip s).
Proof.
  induction s as [|c r IH]; intros p N B; [exact I|].
  simpl lstrip. destruct (is_space c) eqn:Sp.
  - destruct N as [_ N2]. apply (IH (Some c)); auto.
    simpl. rewrite space_cls; auto.
  - apply (nodate_bnd _ p); auto.
Qed.

Lemma strip_nodate : forall s, nodate None s -> nodate None (strip s).
Proof.
  intros s N. unfold strip.
  destruct (rstrip_split (lstrip s)) as [w [E Hw]].
  apply (nodate_app_space _ w _ Hw). rewrite <- E.
  apply (lstrip_nodate s None); auto.
Qed.

(** The normaliser's output never contains a match of the date pattern. *)
Lemma clean_upper_nodate : forall u, nodate None (clean_upper u).
Proof.
  intros u. unfold clean_upper. apply strip_nodate.
  apply (sub_ws_nodate _ false None None); [apply remove_dates_nodate|reflexivity|].
  discriminate.
Qed.

(** *** Canonical whitespace *)

Lemma sub_ws_canon : forall s b, ws_canon b (sub_ws b s).
Proof.
  induction s as [|c r IH]; intros b; [exact I|]. simpl.
  destruct (is_space c) eqn:Sp.
  - destruct b; [apply IH|]. simpl. auto.
  - simpl. rewrite Sp. apply IH.
Qed.

Lemma sub_ws_canon_id : forall s b, ws_canon b s -> sub_ws b s = s.
Proof.
  induction s as [|c r IH]; intros b H; [reflexivity|]. simpl in H |- *.
  destruct (is_space c) eqn:Sp.
  - destruct H as [-> [-> H]]. f_equal. auto.
  - f_equal. auto.
Qed.

Lemma ws_canon_lstrip : forall s b, ws_canon b s -> ws_canon false (lstrip s).
Proof.
  induction s as [|c r IH]; intros b H; [exact I|]. simpl in H |- *.
  destruct (is_space c) eqn:Sp.
  - destruct H as [_ [_ H]]. eauto.
  - simpl. rewrite Sp. exact H.
Qed.

Lemma ws_canon_prefix : forall t w b, ws_canon b (t ++ w) -> ws_canon b t.
Proof.
  induction t as [|c t IH]; intros w b H; [exact I|]. simpl in H |- *.
  destruct (is_space c); [destruct H as [? [? H]]; eauto|eauto].
Qed.

Lemma lstrip_head : forall s,
  lstrip s = [] \/ exists c r, lstrip s = c :: r /\ is_space c = false.
Proof.
  induction s as [|c r IH]; [left; reflexivity|]. simpl.
  destruct (is_space c) eqn:Sp; [exact IH|right; eauto].
Qed.

Lemma lstrip_idem : forall s, lstrip (lstrip s) = lstrip s.
Proof.
  intros s. destruct (lstrip_head s) as [-> | [c [r [-> Sp]]]]; [reflexivity|].
  simpl. rewrite Sp. reflexivity.
Qed.

Lemma strip_idem : forall s, strip (strip s) = strip s.
Proof.
  intros s. unfold strip.
  assert (L : lstrip (rstrip (lstrip s)) = rstrip (lstrip s)).
  { destruct (rstrip_split (lstrip s)) as [w [E _]].
    destruct (rstrip (lstrip s)) as [|c r] eqn:R; [reflexivity|].
    destruct (lstrip_head s) as [Z | [c' [r' [Z Sp]]]];
      rewrite Z in E; [discriminate|].
    inversion E; subst. simpl. rewrite Sp. reflexivity. }
  rewrite L. unfold rstrip. rewrite rev_involutive, lstrip_idem. reflexivity.
Qed.

Lemma strip_canon : forall s, ws_canon false s -> ws_canon false (strip s).
Proof.
  intros s H. unfold strip.
  destruct (rstrip_split (lstrip s)) as [w [E _]].
  apply (ws_canon_prefix _ w). rewrite <- E. eapply ws_canon_lstrip; eauto.
Qed.

(** *** Upper case *)

Lemma Forall_sub_dates : forall (P : ascii -> Prop) f p s,
  Forall P s -> Forall P (sub_dates f p s).
Proof.
  induction f as [|f IH]; intros p s H; [exact H|].
  destruct s as [|c r]; [constructor|]. cbn [sub_dates].
  destruct (date_at p (c :: r)) as [[l rest]|] eqn:E.
  - apply IH. simpl in E. destruct (bnd p && is_digit c); [|discriminate].
    destruct (dmatch_suffix _ _ _ _ _ E) as [pre ->].
    inversion H; subst. apply Forall_app in H3. tauto.
  - inversion H; subst. constructor; auto.
Qed.

Lemma Forall_sub_ws : forall (P : ascii -> Prop) s b,
  P " "%char -> Forall P s -> Forall P (sub_ws b s).
Proof.
  induction s as [|c r IH]; intros b Hs H; [constructor|].
  inversion H; subst. simpl. destruct (is_space c), b; auto.
Qed.

Lemma Forall_lstrip : forall (P : ascii -> Prop) s, Forall P s -> Forall P (lstrip s).
Proof.
  induction s as [|c r IH]; intros H; [constructor|].
  inversion H; subst. simpl. destruct (is_space c); auto.
Qed.

Lemma Forall_strip : forall (P : ascii -> Prop) s, Forall P s -> Forall P (strip s).
Proof.
  intros P s H. unfold strip, rstrip. apply Forall_rev, Forall_lstrip, Forall_rev.
  now apply Forall_lstrip.
Qed.

Lemma clean_upper_upper : forall x,
  map upper (clean_upper (map upper x)) = clean_upper (map upper x).
Proof.
  intros x. rewrite <- map_id. apply map_ext_Forall.
  apply Forall_strip, Forall_sub_ws; [reflexivity|].
  apply Forall_sub_dates.
  apply Forall_forall. intros c Hc. apply in_map_iff in Hc.
  destruct Hc as [c' [<- _]]. apply upper_idem.
Qed.

Lemma clean_upper_fixed : forall x,
  clean_upper (clean_upper x) = clean_upper x.
Proof.
  intros x. unfold clean_upper at 1.
  unfold remove_dates. rewrite sub_dates_id by apply clean_upper_nodate.
  rewrite sub_ws_canon_id.
  - unfold clean_upper. apply strip_idem.
  - unfold clean_upper. apply strip_canon, sub_ws_canon.
Qed.

Lemma dmatch_final : forall st l post,
  dfinal st = true -> head_ok post -> dmatch st l post <> None.
Proof.
  intros st l [|y r] F H; simpl.
  - rewrite F. discriminate.
  - unfold head_ok in H. destruct (bnd_cls y H) as [E|E]; rewrite E;
      destruct st; simpl in F; try discriminate.
Qed.

(** A date-like string standing between non-word characters is matched. *)
Lemma date_like_date_at : forall prev d post,
  date_like d -> bnd prev = true -> head_ok post -> date_at prev (d ++ post) <> None.
Proof.
  intros prev d post [d1 [s1 [d2 [s2 [d3 [-> [F [S1 [S2 [L1 [L2 L3]]]]]]]]]]] B H.
  destruct d1 as [|a1 [|a2 [|? ?]]]; simpl in L1; try lia;
  destruct d2 as [|b1 [|b2 [|? ?]]]; simpl in L2; try lia;
  destruct d3 as [|c1 [|c2 [|c3 [|c4 [|? ?]]]]]; simpl in L3; try lia;
  simpl in F; rewrite !Forall_cons_iff in F;
  repeat match goal with Hc : _ /\ _ |- _ => destruct Hc end;
  simpl; rewrite B;
  repeat match goal with Hd : is_digit ?x = true |- context [is_digit ?x] =>
    rewrite Hd end;
  simpl;
  repeat match goal with Hd : is_digit ?x = true |- context [cls_of ?x] =>
    rewrite (digit_cls x Hd) end;
  rewrite (sep_cls s1 S1), (sep_cls s2 S2); simpl;
  apply dmatch_final; auto.
Qed.

Lemma nodate_app : forall pre s p, nodate p (pre ++ s) -> nodate (last_opt p pre) s.
Proof.
  induction pre as [|c r IH]; intros s p N; [exact N|].
  destruct N as [_ N]. simpl. auto.
Qed.

Lemma bnd_last_opt : forall pre,
  bnd (last_opt None pre) = false -> ends_in_word pre.
Proof.
  intros pre. unfold ends_in_word. destruct (last_opt None pre) as [c|]; [|discriminate].
  rewrite bnd_some. destruct (is_word c); auto.
Qed.

(** ** C6 *)

(** C6: [normalize_text] is idempotent: normalising the output of
    [normalize_text] again returns it unchanged, for every input. *)
Theorem normalize_text_idempotent : forall x,
  normalize_text (CStr (normalize_text x)) = normalize_text x.
Proof.
  intros [|t]; [reflexivity|]. cbn [normalize_text].
  rewrite list_ascii_of_string_of_list_ascii, clean_upper_upper, clean_upper_fixed.
  reflexivity.
Qed.

(** ** C7 *)

(** C7 (as amended): the output of [normalize_text] contains no date-like
    substring (1-2 digits, [-] or [/], 1-2 digits, [-] or [/], 2-4 digits)
    that stands at word boundaries, i.e. is neither preceded nor followed by
    a word character; in particular "Replaced seal on 3/4/2022" becomes
    "REPLACED SEAL ON". *)
Theorem normalize_text_strips_bounded_dates :
  (forall x pre d post,
     list_ascii_of_string (normalize_text x) = pre ++ d ++ post ->
     date_like d -> ends_in_word pre \/ starts_with_word post) /\
  normalize_text (CStr "Replaced seal on 3/4/2022") = "REPLACED SEAL ON"%string.
Proof.
  split; [|reflexivity].
  intros x pre d post E D.
  assert (N : nodate None (list_ascii_of_string (normalize_text x))).
  { destruct x as [|t]; [exact I|]. cbn [normalize_text].
    rewrite list_ascii_of_string_of_list_ascii. apply clean_upper_nodate. }
  rewrite E in N. apply nodate_app in N.
  destruct (bnd (last_opt None pre)) eqn:B; [|left; apply bnd_last_opt; exact B].
  assert (Dn : d <> []).
  { destruct D as [d1 [? [? [? [? [-> [_ [_ [_ [L1 _]]]]]]]]]].
    destruct d1; simpl in L1; [lia|discriminate]. }
  destruct d as [|c r]; [contradiction|]. destruct N as [N _].
  destruct post as [|y post'].
  - exfalso. apply (date_like_date_at _ (c :: r) [] D B I). exact N.
  - destruct (is_word y) eqn:W; [right; exact W|exfalso].
    assert (Hh : head_ok (y :: post')) by (unfold head_ok; rewrite bnd_some, W; reflexivity).
    apply (date_like_date_at _ (c :: r) _ D B Hh). exact N.
Qed.

(** C7 (counterexample): a date-like substring glued to a word character is
    not removed: "X3/4/2022" normalises to "X3/4/2022", which still contains
    the date-like substring "3/4/2022". *)
Lemma normalize_text_keeps_glued_date :
  normalize_text (CStr "X3/4/2022") = ("X" ++ "3/4/2022")%string /\
  date_like (list_ascii_of_string "3/4/2022").
Proof.
  split; [reflexivity|].
  exists ["3"%char], "/"%char, ["4"%char], "/"%char,
    ["2"%char; "0"%char; "2"%char; "2"%char].
  repeat split; try reflexivity; repeat constructor.
Qed.

End TextFacts.

(* ------------------------------------------------------------------ *)
(** ** Facts about [SequenceMatcher] *)

Module DifflibFacts.
Import Chars Difflib.

Section Bounds.
Variables a b : list string.

(** Every stored run length is bounded by the number of rows seen and by
    the distance from [blo]. *)
Definition jinv (blo d : nat) (m : list (nat * nat)) : Prop :=
  forall j, lookup j m <= d /\ lookup j m <= j + 1 - blo.

Lemma jinv_nil blo d : jinv blo d [].
Proof. intros j; simpl; lia. Qed.

Lemma j2len_get_bound blo d m j :
  jinv blo d m -> j2len_get m j <= d /\ j2len_get m j <= j - blo.
Proof.
  intros H; destruct j as [|j']; cbn [j2len_get]; [split; lia|].
  destruct (H j'); split; lia.
Qed.

Lemma flm_row_bounds alo ahi blo bhi i prev js :
  alo <= i < ahi -> jinv blo (i - alo) prev ->
  forall acc best, jinv blo (i + 1 - alo) acc -> inb alo ahi blo bhi best ->
  jinv blo (i + 1 - alo) (fst (flm_row blo bhi i prev js acc best)) /\
  inb alo ahi blo bhi (snd (flm_row blo bhi i prev js acc best)).
Proof.
  intros Hi Hp; induction js as [|j js IH]; intros acc best Hacc Hb;
    simpl; [auto|].
  destruct (j <? blo) eqn:E1; [apply IH; auto|].
  destruct (bhi <=? j) eqn:E2; [simpl; auto|].
  apply Nat.ltb_ge in E1; apply Nat.leb_gt in E2.
  destruct (j2len_get_bound _ _ _ j Hp) as [G1 G2].
  apply IH.
  - intros j0; simpl; destruct (j0 =? j) eqn:E.
    + apply Nat.eqb_eq in E; subst; lia.
    + apply Hacc.
  - destruct best as [[bi bj] bs]; simpl in Hb |- *.
    destruct (bs <? j2len_get prev j + 1); simpl; lia.
Qed.

Lemma flm_rows_bounds alo ahi blo bhi :
  forall cnt i prev best, i + cnt <= ahi -> alo <= i ->
  jinv blo (i - alo) prev -> inb alo ahi blo bhi best ->
  inb alo ahi blo bhi (flm_rows a b blo bhi cnt i prev best).
Proof.
  induction cnt as [|c IH]; intros i prev best Hc Hi Hp Hb; simpl; [exact Hb|].
  destruct (flm_row_bounds alo ahi blo bhi i prev (b2j b (tok_a a i))
              ltac:(lia) Hp [] best (jinv_nil _ _) Hb) as [R1 R2].
  destruct (flm_row blo bhi i prev (b2j b (tok_a a i)) [] best)
    as [m' best'] eqn:E; simpl in R1, R2.
  apply IH; try lia; auto.
  replace (S i - alo) with (i + 1 - alo) by lia; exact R1.
Qed.

Lemma ext_back_bounds alo ahi blo bhi :
  forall f i j k, inb alo ahi blo bhi (i, j, k) ->
  inb alo ahi blo bhi (ext_back a b f alo blo i j k).
Proof.
  induction f as [|f IH]; intros i j k H; simpl; [exact H|].
  destruct ((alo <? i) && (blo <? j) && String.eqb _ _) eqn:E; [|exact H].
  apply andb_prop in E as [E _]; apply andb_prop in E as [E1 E2].
  apply Nat.ltb_lt in E1; apply Nat.ltb_lt in E2.
  apply IH; simpl in H |- *; lia.
Qed.

Lemma ext_fwd_bounds alo ahi blo bhi :
  forall f i j k, inb alo ahi blo bhi (i, j, k) ->
  inb alo ahi blo bhi (ext_fwd a b f ahi bhi i j k).
Proof.
  induction f as [|f IH]; intros i j k H; simpl; [exact H|].
  destruct ((i + k <? ahi) && (j + k <? bhi) && String.eqb _ _) eqn:E;
    [|exact H].
  apply andb_prop in E as [E _]; apply andb_prop in E as [E1 E2].
  apply Nat.ltb_lt in E1; apply Nat.ltb_lt in E2.
  apply IH; simpl in H |- *; lia.
Qed.

Lemma find_longest_match_bounds alo ahi blo bhi :
  alo <= ahi -> blo <= bhi ->
  inb alo ahi blo bhi (find_longest_match a b alo ahi blo bhi).
Proof.
  intros H1 H2; unfold find_longest_match.
  pose proof (flm_rows_bounds alo ahi blo bhi (ahi - alo) alo [] (alo, blo, 0)
                ltac:(lia) ltac:(lia) (jinv_nil _ _) ltac:(simpl; lia)) as B.
  destruct (flm_rows a b blo bhi (ahi - alo) alo [] (alo, blo, 0))
    as [[i j] k].
  pose proof (ext_back_bounds alo ahi blo bhi (i - alo) i j k B) as B'.
  destruct (ext_back a b (i - alo) alo blo i j k) as [[i' j'] k'].
  apply ext_fwd_bounds; exact B'.
Qed.

Lemma matched_bound :
  forall f alo ahi blo bhi, alo <= ahi -> blo <= bhi ->
  matched a b f alo ahi blo bhi <= ahi - alo /\
  matched a b f alo ahi blo bhi <= bhi - blo.
Proof.
  induction f as [|f IH]; intros alo ahi blo bhi H1 H2; simpl; [lia|].
  pose proof (find_longest_match_bounds alo ahi blo bhi H1 H2) as B.
  destruct (find_longest_match a b alo ahi blo bhi) as [[i j] k].
  simpl in B.
  destruct (k =? 0); [lia|].
  destruct ((alo <? i) && (blo <? j)).
  - destruct (IH alo i blo j ltac:(lia) ltac:(lia)).
    destruct ((i + k <? ahi) && (j + k <? bhi)).
    + destruct (IH (i + k) ahi (j + k) bhi ltac:(lia) ltac:(lia)); lia.
    + lia.
  - destruct ((i + k <? ahi) && (j + k <? bhi)).
    + destruct (IH (i + k) ahi (j + k) bhi ltac:(lia) ltac:(lia)); lia.
    + lia.
Qed.

Lemma zpos_of_nat t : t <> 0 -> Zpos (Pos.of_nat t) = Z.of_nat t.
Proof.
  intros H; destruct t as [|t]; [congruence|].
  rewrite <- Pos.of_nat_succ, Zpos_P_of_succ_nat; lia.
Qed.

Lemma ratio_bounds : (0 <= ratio a b <= 1)%Q.
Proof.
  unfold ratio.
  destruct (matched_bound (S (List.length a)) 0 (List.length a) 0
              (List.length b) ltac:(lia) ltac:(lia)) as [M1 M2].
  destruct (List.length a + List.length b =? 0) eqn:E.
  - split; discriminate.
  - apply Nat.eqb_neq in E.
    set (m := matched a b _ _ _ _ _) in *.
    unfold Qle; cbn [Qnum Qden]; rewrite zpos_of_nat by exact E; split; lia.
Qed.

End Bounds.

Section Rows.
Variables a b : list string.

Lemma mem_In j l : mem j l = true <-> In j l.
Proof.
  unfold mem; rewrite existsb_exists; split.
  - intros [y [Hy E]]; apply Nat.eqb_eq in E; subst; exact Hy.
  - intros H; exists j; split; [exact H|apply Nat.eqb_refl].
Qed.

Lemma b2j_In s j :
  In j (b2j b s) <-> popular b s = false /\ j < List.length b /\ tok_b b j = s.
Proof.
  unfold b2j; destruct (popular b s); simpl.
  - split; [contradiction|intros [H _]; discriminate].
  - unfold indices_of; rewrite filter_In, in_seq, String.eqb_eq.
    split; [intros [H1 H2]; repeat split; auto; lia|intros [_ [H1 H2]]; split; auto; lia].
Qed.

Lemma sorted_seq : forall n s, StronglySorted lt (seq s n).
Proof.
  induction n as [|n IH]; intros s; simpl; constructor; [apply IH|].
  apply Forall_forall; intros y Hy; apply in_seq in Hy; lia.
Qed.

Lemma sorted_filter (f : nat -> bool) :
  forall l, StronglySorted lt l -> StronglySorted lt (filter f l).
Proof.
  induction l as [|y l IH]; intros H; simpl; [constructor|].
  inversion H as [|? ? H1 H2]; subst.
  destruct (f y); [constructor; [auto|]|auto].
  apply Forall_forall; intros z Hz; apply filter_In in Hz as [Hz _].
  rewrite Forall_forall in H2; auto.
Qed.

Lemma b2j_sorted s : StronglySorted lt (b2j b s).
Proof.
  unfold b2j; destruct (popular b s); [constructor|].
  apply sorted_filter, sorted_seq.
Qed.

Lemma processed_In blo bhi :
  forall js, StronglySorted lt js ->
  forall j, In j (processed blo bhi js) <-> In j js /\ blo <= j < bhi.
Proof.
  induction js as [|y js IH]; intros H j; simpl; [tauto|].
  inversion H as [|? ? H1 H2]; subst; rewrite Forall_forall in H2.
  destruct (y <? blo) eqn:E1; [apply Nat.ltb_lt in E1|apply Nat.ltb_ge in E1].
  - rewrite IH by exact H1; split; [tauto|].
    intros [[<-|Hj] Hr]; [lia|tauto].
  - destruct (bhi <=? y) eqn:E2; [apply Nat.leb_le in E2|apply Nat.leb_gt in E2].
    + simpl; split; [tauto|].
      intros [[<-|Hj] Hr]; [lia|]; specialize (H2 j Hj); lia.
    + simpl; rewrite IH by exact H1; split.
      * intros [<-|Hj]; [split; [left|]; auto; lia|tauto].
      * intros [[<-|Hj] Hr]; [left; auto|right; tauto].
Qed.

Lemma processed_sorted blo bhi :
  forall js, StronglySorted lt js -> StronglySorted lt (processed blo bhi js).
Proof.
  induction js as [|y js IH]; intros H; simpl; [constructor|].
  inversion H as [|? ? H1 H2]; subst.
  destruct (y <? blo); [auto|]; destruct (bhi <=? y); [constructor|].
  constructor; [auto|]; rewrite Forall_forall in H2 |- *.
  intros z Hz; apply (processed_In blo bhi js H1) in Hz as [Hz _]; auto.
Qed.

(** The row loop visits [processed js] in order. *)
Lemma flm_row_eq blo bhi i prev :
  forall js acc best,
  flm_row blo bhi i prev js acc best =
  (rev (map (fun j => (j, j2len_get prev j + 1)) (processed blo bhi js)) ++ acc,
   fold_left (upd i) (map (fun j => (j, j2len_get prev j + 1))
                         (processed blo bhi js)) best).
Proof.
  induction js as [|y js IH]; intros acc best; simpl; [reflexivity|].
  destruct (y <? blo); [apply IH|]; destruct (bhi <=? y); [reflexivity|].
  rewrite IH; simpl; rewrite <- app_assoc; reflexivity.
Qed.

Lemma lookup_map (f : nat -> nat) j :
  forall l, lookup j (map (fun x => (x, f x)) l) = if mem j l then f j else 0.
Proof.
  induction l as [|y l IH]; simpl; [reflexivity|].
  destruct (j =? y) eqn:E; simpl; [apply Nat.eqb_eq in E; subst; reflexivity|].
  exact IH.
Qed.

Lemma mem_rev j l : mem j (rev l) = mem j l.
Proof.
  destruct (mem j l) eqn:E.
  - apply mem_In; apply mem_In in E; apply in_rev; rewrite rev_involutive; exact E.
  - destruct (mem j (rev l)) eqn:F; [|reflexivity].
    apply mem_In, in_rev in F; apply mem_In in F; congruence.
Qed.

Lemma runlen_eq blo bhi t i j :
  runlen a b blo bhi t i j =
  if (blo <=? j) && (j <? bhi) && mem j (b2j b (tok_a a i)) then
    match j with O => 0 | S j' => rprev a b blo bhi t i j' end + 1
  else 0.
Proof. destruct t; reflexivity. Qed.

Lemma runlen_pos blo bhi t i j :
  0 < runlen a b blo bhi t i j ->
  blo <= j < bhi /\ In j (b2j b (tok_a a i)).
Proof.
  rewrite runlen_eq.
  destruct ((blo <=? j) && (j <? bhi) && mem j (b2j b (tok_a a i))) eqn:E;
    [|lia].
  intros _; apply andb_prop in E as [E E3]; apply andb_prop in E as [E1 E2].
  apply Nat.leb_le in E1; apply Nat.ltb_lt in E2; apply mem_In in E3; auto.
Qed.

Section Row.
Variables (blo bhi t i : nat) (prev : list (nat * nat)).
Hypothesis Hprev : forall j, lookup j prev = rprev a b blo bhi t i j.

(** On the entries the row visits, the stored value is [runlen]. *)
Lemma row_value j :
  In j (processed blo bhi (b2j b (tok_a a i))) ->
  j2len_get prev j + 1 = runlen a b blo bhi t i j.
Proof.
  intros Hj; apply (processed_In _ _ _ (b2j_sorted _)) in Hj as [Hj [R1 R2]].
  rewrite runlen_eq.
  replace ((blo <=? j) && (j <? bhi) && mem j (b2j b (tok_a a i))) with true.
  - destruct j as [|j']; [reflexivity|]; cbn [j2len_get]; rewrite Hprev;
      reflexivity.
  - symmetry; apply andb_true_intro; split; [apply andb_true_intro; split|].
    + apply Nat.leb_le; exact R1.
    + apply Nat.ltb_lt; exact R2.
    + apply mem_In; exact Hj.
Qed.

Lemma row_j2len best j :
  lookup j (fst (flm_row blo bhi i prev (b2j b (tok_a a i)) [] best)) =
  runlen a b blo bhi t i j.
Proof.
  rewrite flm_row_eq; cbn [fst]; rewrite app_nil_r, <- map_rev, lookup_map,
    mem_rev.
  destruct (mem j (processed blo bhi (b2j b (tok_a a i)))) eqn:E.
  - apply row_value, mem_In, E.
  - destruct (runlen a b blo bhi t i j) eqn:F; [reflexivity|].
    destruct (runlen_pos blo bhi t i j ltac:(lia)) as [R Hj].
    assert (In j (processed blo bhi (b2j b (tok_a a i)))) as Hp
      by (apply (processed_In _ _ _ (b2j_sorted _)); auto).
    apply mem_In in Hp; congruence.
Qed.

Lemma row_best best :
  snd (flm_row blo bhi i prev (b2j b (tok_a a i)) [] best) =
  fold_left (upd i) (map (fun j => (j, runlen a b blo bhi t i j))
                        (processed blo bhi (b2j b (tok_a a i)))) best.
Proof.
  rewrite flm_row_eq; cbn [snd]; f_equal.
  apply map_ext_in; intros j Hj; rewrite row_value by exact Hj; reflexivity.
Qed.

End Row.

End Rows.

(** Comparing a sequence with itself: the longest match of a range with
    itself is the whole range. *)
Section Identical.
Variables (x : list string) (lo hi : nat).
Hypotheses (Hlh : lo <= hi) (Hhx : hi <= List.length x).

Local Abbreviation R i j := (runlen x x lo hi (i - lo) i j).

Lemma runlen_le t i j :
  runlen x x lo hi t i j <=
  match j with O => 0 | S j' => rprev x x lo hi t i j' end + 1.
Proof.
  rewrite runlen_eq; destruct (_ && _ && _); lia.
Qed.

Lemma diag_head t i j :
  lo <= i < hi -> 0 < runlen x x lo hi t i j ->
  lo <= Nat.min i j < hi /\
  R (Nat.min i j) (Nat.min i j) =
  match Nat.min i j with
  | O => 0
  | S m' => rprev x x lo hi (Nat.min i j - lo) (Nat.min i j) m'
  end + 1.
Proof.
  intros Hi Hp.
  destruct (runlen_pos x x lo hi t i j Hp) as [Rj Hj].
  apply b2j_In in Hj as [Pop [Jl Tj]].
  assert (Hm : lo <= Nat.min i j < hi) by lia.
  assert (Tm : tok_a x (Nat.min i j) = tok_a x i).
  { destruct (Nat.le_ge_cases i j);
      [rewrite Nat.min_l by lia|rewrite Nat.min_r by lia]; auto. }
  split; [exact Hm|].
  rewrite runlen_eq.
  replace ((lo <=? Nat.min i j) && (Nat.min i j <? hi) &&
           mem (Nat.min i j) (b2j x (tok_a x (Nat.min i j)))) with true;
    [reflexivity|].
  symmetry; apply andb_true_intro; split; [apply andb_true_intro; split|].
  - apply Nat.leb_le; lia.
  - apply Nat.ltb_lt; lia.
  - apply mem_In, b2j_In; rewrite Tm; repeat split; auto; lia.
Qed.

(** A run ending off the diagonal is no longer than the run ending on the
    diagonal at the smaller of its two indices. *)
Lemma run_diag :
  forall t i j, i - lo = t -> lo <= i < hi ->
  runlen x x lo hi t i j <= R (Nat.min i j) (Nat.min i j).
Proof.
  induction t as [|t IH]; intros i j Ht Hi;
    match goal with |- runlen _ _ _ _ ?t _ _ <= _ =>
      destruct (Nat.eq_dec (runlen x x lo hi t i j) 0) as [Z|NZ]; [lia|];
      destruct (diag_head t i j Hi ltac:(lia)) as [Hm E]; rewrite E;
      pose proof (runlen_le t i j) as L
    end.
  - destruct j; cbn [rprev] in L; lia.
  - destruct j as [|j']; [lia|]; cbn [rprev] in L.
    specialize (IH (i - 1) j' ltac:(lia) ltac:(lia)).
    destruct (Nat.eq_dec (runlen x x lo hi t (i - 1) j') 0) as [Z'|NZ']; [lia|].
    destruct (runlen_pos x x lo hi _ _ _
                (Nat.lt_le_trans _ _ _ (proj1 (Nat.neq_0_lt_0 _) NZ') IH))
      as [Rm _].
    assert (Em : Nat.min i (S j') = S (Nat.min (i - 1) j')) by lia.
    rewrite Em in *; set (m' := Nat.min (i - 1) j') in *.
    replace (S m' - lo) with (S (m' - lo)) by lia; cbn [rprev].
    replace (S m' - 1) with m' by lia; lia.
Qed.

(** The invariant of [best] in row [i] while the entries [rem] are left:
    it is on the diagonal, covers every earlier row, and covers the current
    row below the first entry left. *)
Definition dinv (i : nat) (rem : list nat) (best : nat * nat * nat) : Prop :=
  let '(bi, bj, bs) := best in
  bi = bj /\ (forall i' j', lo <= i' < i -> R i' j' <= bs) /\
  (forall j', R i j' <= bs \/ exists y, In y rem /\ y <= j').

Lemma row_shift i y tail bs bs' :
  Forall (lt y) tail ->
  (forall j', 0 < R i j' -> (exists z, In z (y :: tail) /\ z <= j') ->
     In j' (y :: tail)) ->
  R i y <= bs' -> bs <= bs' ->
  forall j', (R i j' <= bs \/ exists z, In z (y :: tail) /\ z <= j') ->
  R i j' <= bs' \/ exists z, In z tail /\ z <= j'.
Proof.
  intros Hs Hpos Hy Hb j' [H|[z [[<-|Hz] Hz']]]; [left; lia| |right; eauto].
  destruct (Nat.eq_dec j' y) as [->|Ne]; [left; exact Hy|].
  destruct (existsb (fun w => w <=? j') tail) eqn:Ex.
  - apply existsb_exists in Ex as [w [Hw Lw]]; apply Nat.leb_le in Lw.
    right; eauto.
  - left; destruct (Nat.eq_dec (R i j') 0) as [Z|NZ]; [lia|].
    destruct (Hpos j' ltac:(lia) ltac:(exists y; split; [left|]; auto))
      as [->|Hj]; [congruence|].
    assert (existsb (fun w => w <=? j') tail = true)
      by (apply existsb_exists; exists j'; split; [auto|apply Nat.leb_refl]).
    congruence.
Qed.

Lemma fold_diag i :
  lo <= i < hi ->
  forall rem best, StronglySorted lt rem -> (forall y, In y rem -> lo <= y) ->
  (forall j', 0 < R i j' -> (exists y, In y rem /\ y <= j') -> In j' rem) ->
  dinv i rem best ->
  dinv i [] (fold_left (upd i) (map (fun j => (j, R i j)) rem) best).
Proof.
  intros Hi; induction rem as [|y tail IH]; intros best Hs Hlo Hpos Hd;
    [exact Hd|].
  inversion Hs as [|? ? Hs1 Hs2]; subst; cbn [map fold_left].
  apply IH; [exact Hs1|intros; apply Hlo; right; auto| |].
  { intros j' Hp [z [Hz Lz]].
    destruct (Hpos j' Hp ltac:(exists z; split; [right|]; auto)) as [<-|H];
      [|exact H].
    rewrite Forall_forall in Hs2; specialize (Hs2 z Hz); lia. }
  destruct best as [[bi bj] bs]; destruct Hd as [Hd [Hrows Hrow]].
  unfold upd; destruct (bs <? R i y) eqn:U.
  - apply Nat.ltb_lt in U.
    assert (y = i) as ->.
    { destruct (lt_eq_lt_dec y i) as [[Lt|Eq]|Gt]; [|exact Eq|].
      - pose proof (run_diag _ i y eq_refl Hi) as D.
        rewrite Nat.min_r in D by lia.
        specialize (Hrows y y ltac:(split; [apply Hlo; left; auto|lia])); lia.
      - pose proof (run_diag _ i y eq_refl Hi) as D.
        rewrite Nat.min_l in D by lia.
        destruct (Hrow i) as [H|[z [[<-|Hz] Lz]]]; [lia|lia|].
        rewrite Forall_forall in Hs2; specialize (Hs2 z Hz); lia. }
    split; [reflexivity|split].
    + intros i' j' H; specialize (Hrows i' j' H); lia.
    + intros j'; apply (row_shift i i tail bs (R i i)); auto; lia.
  - apply Nat.ltb_ge in U.
    split; [exact Hd|split; [exact Hrows|]].
    intros j'; apply (row_shift i y tail bs bs); auto.
Qed.

Lemma rows_diag :
  forall cnt i prev best, i + cnt = hi -> lo <= i ->
  (forall j, lookup j prev = rprev x x lo hi (i - lo) i j) ->
  (let '(bi, bj, bs) := best in
   bi = bj /\ forall i' j', lo <= i' < i -> R i' j' <= bs) ->
  let '(bi, bj, bs) := flm_rows x x lo hi cnt i prev best in bi = bj.
Proof.
  induction cnt as [|c IH]; intros i prev best Hc Hi Hp Hb.
  - destruct best as [[bi bj] bs]; apply Hb.
  - cbn [flm_rows].
    pose proof (row_j2len x x lo hi (i - lo) i prev Hp best) as J.
    pose proof (row_best x x lo hi (i - lo) i prev Hp best) as B.
    destruct (flm_row lo hi i prev (b2j x (tok_a x i)) [] best)
      as [m' best'] eqn:E; cbn [fst snd] in J, B.
    apply IH; [lia|lia| |].
    + intros j; rewrite J; replace (S i - lo) with (S (i - lo)) by lia.
      cbn [rprev]; replace (S i - 1) with i by lia; reflexivity.
    + set (P := processed lo hi (b2j x (tok_a x i))) in B.
      assert (HP : forall j, In j P <-> In j (b2j x (tok_a x i)) /\ lo <= j < hi)
        by (apply processed_In, b2j_sorted).
      assert (D : dinv i [] best').
      { rewrite B; apply fold_diag; [lia|apply processed_sorted, b2j_sorted
        |intros y Hy; apply HP in Hy; lia| |].
        - intros j' Hj' _; apply HP.
          destruct (runlen_pos x x lo hi _ _ _ Hj'); auto.
        - destruct best as [[bi bj] bs]; destruct Hb as [Hb1 Hb2].
          split; [exact Hb1|split; [exact Hb2|]].
          intros j'; destruct (Nat.eq_dec (R i j') 0) as [Z|NZ]; [left; lia|].
          right; exists j'; split; [|lia].
          apply HP; destruct (runlen_pos x x lo hi _ _ _
                                (proj1 (Nat.neq_0_lt_0 _) NZ)); auto. }
      destruct best' as [[bi bj] bs]; destruct D as [D1 [D2 D3]].
      split; [exact D1|].
      intros i' j' H; destruct (Nat.eq_dec i' i) as [->|Ne];
        [destruct (D3 j') as [L|[z [[] _]]]; exact L|].
      apply D2; lia.
Qed.

Lemma ext_back_ident :
  forall f bi bs, bi - lo = f -> lo <= bi ->
  ext_back x x f lo lo bi bi bs = (lo, lo, bs + f).
Proof.
  induction f as [|f IH]; intros bi bs Hf Hb; cbn [ext_back].
  - replace bi with lo by lia; rewrite Nat.add_0_r; reflexivity.
  - replace (String.eqb (tok_a x (bi - 1)) (tok_b x (bi - 1))) with true
      by (symmetry; apply String.eqb_refl).
    replace (lo <? bi) with true by (symmetry; apply Nat.ltb_lt; lia).
    cbn [andb]; rewrite IH by lia; f_equal; lia.
Qed.

Lemma ext_fwd_ident :
  forall f s, hi - (lo + s) = f -> lo + s <= hi ->
  ext_fwd x x f hi hi lo lo s = (lo, lo, hi - lo).
Proof.
  induction f as [|f IH]; intros s Hf Hs; cbn [ext_fwd].
  - f_equal; lia.
  - replace (String.eqb (tok_a x (lo + s)) (tok_b x (lo + s))) with true
      by (symmetry; apply String.eqb_refl).
    replace (lo + s <? hi) with true by (symmetry; apply Nat.ltb_lt; lia).
    cbn [andb]; apply IH; lia.
Qed.

Lemma find_longest_match_ident :
  find_longest_match x x lo hi lo hi = (lo, lo, hi - lo).
Proof.
  unfold find_longest_match.
  pose proof (flm_rows_bounds x x lo hi lo hi (hi - lo) lo [] (lo, lo, 0)
                ltac:(lia) ltac:(lia) (jinv_nil _ _) ltac:(simpl; lia)) as B.
  pose proof (rows_diag (hi - lo) lo [] (lo, lo, 0) ltac:(lia) ltac:(lia)
                ltac:(intros j; rewrite Nat.sub_diag; reflexivity)
                ltac:(split; [reflexivity|intros; lia])) as D.
  destruct (flm_rows x x lo hi (hi - lo) lo [] (lo, lo, 0)) as [[bi bj] bs].
  cbn in B; subst bj.
  rewrite ext_back_ident by lia.
  apply ext_fwd_ident; lia.
Qed.

Lemma matched_ident f : matched x x (S f) lo hi lo hi = hi - lo.
Proof.
  cbn [matched]; rewrite find_longest_match_ident.
  destruct (hi - lo =? 0) eqn:E; [apply Nat.eqb_eq in E; lia|].
  rewrite Nat.ltb_irrefl; cbn [andb].
  replace (lo + (hi - lo) <? hi) with false
    by (symmetry; apply Nat.ltb_ge; lia).
  cbn [andb]; lia.
Qed.

End Identical.

Lemma ratio_ident x : (ratio x x == 1)%Q.
Proof.
  unfold ratio; rewrite (matched_ident x 0 (List.length x)) by lia.
  destruct (List.length x + List.length x =? 0) eqn:E; [reflexivity|].
  apply Nat.eqb_neq in E.
  unfold Qeq; cbn [Qnum Qden]; rewrite zpos_of_nat by exact E; lia.
Qed.

(** C8 (corrected): [semantic_overlap] is 0 when either argument is the
    empty string; when both arguments are non-empty and split into the same
    whitespace-delimited token sequence it is 100; it always lies between 0
    and 100. *)
Theorem semantic_overlap_spec :
  (forall s, (semantic_overlap "" s == 0)%Q /\ (semantic_overlap s "" == 0)%Q) /\
  (forall s1 s2, s1 <> ""%string -> s2 <> ""%string ->
     py_split s1 = py_split s2 -> (semantic_overlap s1 s2 == 100)%Q) /\
  (forall s1 s2, (0 <= semantic_overlap s1 s2 <= 100)%Q).
Proof.
  split; [|split].
  - intros s; unfold semantic_overlap; rewrite (String.eqb_refl "").
    rewrite Bool.orb_true_r; split; reflexivity.
  - intros s1 s2 H1 H2 E; unfold semantic_overlap.
    rewrite (proj2 (String.eqb_neq _ _) H1), (proj2 (String.eqb_neq _ _) H2).
    cbn [orb]; rewrite E, ratio_ident; reflexivity.
  - intros s1 s2; unfold semantic_overlap.
    destruct (String.eqb s1 "" || String.eqb s2 "").
    + split; apply Qle_bool_imp_le; reflexivity.
    + destruct (ratio_bounds (py_split s1) (py_split s2)) as [L U]; split.
      * apply Qmult_le_0_compat; [exact L|apply Qle_bool_imp_le; reflexivity].
      * apply Qle_trans with (1 * 100)%Q;
          [apply Qmult_le_compat_r; [exact U|apply Qle_bool_imp_le; reflexivity]
          |apply Qle_bool_imp_le; reflexivity].
Qed.

(** C8: the case of token-identical non-empty arguments, at a concrete pair
    that differs only in whitespace. *)
Lemma semantic_overlap_spec_witness :
  ("Replaced  seal"%string <> ""%string /\ " Replaced seal "%string <> ""%string /\
   py_split "Replaced  seal"%string = py_split " Replaced seal "%string) /\
  (semantic_overlap "Replaced  seal"%string " Replaced seal "%string == 100)%Q.
Proof.
  split; [split; [discriminate|split; [discriminate|vm_compute; reflexivity]]|].
  apply (proj1 (proj2 semantic_overlap_spec));
    [discriminate|discriminate|vm_compute; reflexivity].
Defined.

(** C8: [""] and ["  "%string] split into the same (empty) token sequence, yet the
    overlap is 0, not 100. *)
Lemma semantic_overlap_empty_tokens :
  py_split ""%string = py_split "  "%string /\ (semantic_overlap ""%string "  "%string == 0)%Q /\
  ~ (semantic_overlap ""%string "  "%string == 100)%Q.
Proof.
  split; [vm_compute; reflexivity|split; [vm_compute; reflexivity|]].
  vm_compute; discriminate.
Qed.

End DifflibFacts.

(* ------------------------------------------------------------------ *)
(** ** Facts about [get_decision_conclusion] *)

Module DecisionFacts.
Import Decision.
Local Open Scope string_scope.

Lemma Qltb_iff p q : Qltb p q = true <-> (p < q)%Q.
Proof. unfold Qltb; rewrite Qlt_alt; destruct (p ?= q)%Q; split; congruence. Qed.

Lemma Qltb_false p q : (q <= p)%Q -> Qltb p q = false.
Proof.
  intros H; destruct (Qltb p q) eqn:E; [|reflexivity].
  apply Qltb_iff in E; exfalso; exact (Qle_not_lt _ _ H E).
Qed.

Lemma get_some s f : ~ (f == 0)%Q ->
  get_decision_conclusion s (Some f) =
  (let percent_diff := ((s - f) / f * 100)%Q in
   let diff_class :=
     if Qltb percent_diff 0 then "diff-negative"
     else if Qle_bool (Qabs percent_diff) 5 then "diff-neutral"
     else "diff-positive" in
   let sign := if Qle_bool 0 percent_diff then "+" else "" in
   let percent_display := sign ++ fmt1 percent_diff ++ "%" in
   if Qltb s f then mk_conclusion msg_below "#22aa58" percent_display diff_class
   else if Qle_bool (Qabs (s - f) / f) (5 # 100) then
     mk_conclusion msg_range "#222f3e" percent_display diff_class
   else mk_conclusion msg_review "#b0202e" percent_display diff_class).
Proof.
  intros H; unfold get_decision_conclusion.
  destruct (Qeq_bool f 0) eqn:E; [apply Qeq_bool_iff in E; contradiction|].
  reflexivity.
Qed.

Lemma abs_percent s f : (0 < f)%Q ->
  (Qabs ((s - f) / f * 100) == Qabs (s - f) / f * 100)%Q.
Proof.
  intros Hf; unfold Qdiv; rewrite !Qabs_Qmult.
  rewrite (Qabs_pos (/ f)) by (apply Qlt_le_weak, Qinv_lt_0_compat, Hf).
  rewrite (Qabs_pos 100) by (apply Qle_bool_imp_le; reflexivity).
  reflexivity.
Qed.

Lemma Qinv_neg f : (f < 0)%Q -> (/ f < 0)%Q.
Proof.
  destruct f as [[|p|p] d]; unfold Qlt; simpl; intros H; try lia.
Qed.

Lemma range_iff s f : (0 < f)%Q ->
  ((Qabs (s - f) / f <= 5 # 100)%Q <-> (Qabs ((s - f) / f * 100) <= 5)%Q).
Proof.
  intros Hf; rewrite abs_percent by exact Hf.
  set (r := (Qabs (s - f) / f)%Q); split; intros H.
  - apply Qle_trans with ((5 # 100) * 100)%Q;
      [apply Qmult_le_compat_r; [exact H|apply Qle_bool_imp_le; reflexivity]
      |apply Qle_bool_imp_le; reflexivity].
  - apply (Qmult_le_r _ _ 100); [reflexivity|].
    apply Qle_trans with 5%Q; [exact H|apply Qle_bool_imp_le; reflexivity].
Qed.

Lemma neg_within s f : (f < 0)%Q -> (Qabs (s - f) / f <= 5 # 100)%Q.
Proof.
  intros Hf; unfold Qdiv; apply Qle_trans with 0%Q;
    [|apply Qle_bool_imp_le; reflexivity].
  assert (0 <= Qabs (s - f) * - / f)%Q as H.
  { apply Qmult_le_0_compat; [apply Qabs_nonneg|].
    pose proof (Qinv_neg f Hf) as N.
    apply Qlt_le_weak, (Qopp_le_compat _ 0) in N; exact N. }
  setoid_replace (Qabs (s - f) * / f)%Q with (- (Qabs (s - f) * - / f))%Q
    by ring.
  apply (Qopp_le_compat 0) in H; exact H.
Qed.

(** The classifier as coded (app.py, lines 126-152), for every supplier
    value and fair value: a missing or zero fair value gives the no-data
    conclusion (alert colour, display "N/A (no historical data)"); otherwise
    the display is the percent difference with an explicit "+" when it is
    not negative and one decimal; a supplier value below the fair value
    gives the approve conclusion; otherwise the within-range conclusion when
    [|supplier - fair| / fair <= 0.05] and the needs-review one when not.
    For a positive fair value that test is [|percent_diff| <= 5]; for a
    negative one it always holds. The four examples of the specification. *)
Theorem get_decision_conclusion_spec :
  (forall s, get_decision_conclusion s None = no_data) /\
  (forall s f, (f == 0)%Q -> get_decision_conclusion s (Some f) = no_data) /\
  percent_display no_data = "N/A (no historical data)" /\
  color no_data = "#b0202e" /\
  (forall s f, ~ (f == 0)%Q ->
     percent_display (get_decision_conclusion s (Some f)) =
     (if Qle_bool 0 ((s - f) / f * 100) then "+" else "") ++
     fmt1 ((s - f) / f * 100) ++ "%") /\
  (forall s f, ~ (f == 0)%Q -> (s < f)%Q ->
     conclusion (get_decision_conclusion s (Some f)) = msg_below /\
     color (get_decision_conclusion s (Some f)) = "#22aa58") /\
  (forall s f, ~ (f == 0)%Q -> (f <= s)%Q -> (Qabs (s - f) / f <= 5 # 100)%Q ->
     conclusion (get_decision_conclusion s (Some f)) = msg_range) /\
  (forall s f, ~ (f == 0)%Q -> (f <= s)%Q -> (5 # 100 < Qabs (s - f) / f)%Q ->
     conclusion (get_decision_conclusion s (Some f)) = msg_review /\
     color (get_decision_conclusion s (Some f)) = "#b0202e") /\
  (forall s f, (0 < f)%Q ->
     ((Qabs (s - f) / f <= 5 # 100)%Q <-> (Qabs ((s - f) / f * 100) <= 5)%Q)) /\
  (forall s f, (f < 0)%Q -> (Qabs (s - f) / f <= 5 # 100)%Q) /\
  conclusion (get_decision_conclusion 95 (Some 100%Q)) = msg_below /\
  conclusion (get_decision_conclusion 104 (Some 100%Q)) = msg_range /\
  conclusion (get_decision_conclusion 120 (Some 100%Q)) = msg_review /\
  percent_display (get_decision_conclusion 120 (Some 100%Q)) = "+20.0%" /\
  percent_display (get_decision_conclusion 50 (Some 0%Q)) =
    "N/A (no historical data)".
Proof.
  split; [reflexivity|].
  split; [intros s f H; unfold get_decision_conclusion;
          rewrite (proj2 (Qeq_bool_iff f 0) H); reflexivity|].
  split; [reflexivity|split; [reflexivity|]].
  split; [intros s f H; rewrite get_some by exact H; cbv zeta;
          destruct (Qltb s f); [|destruct (Qle_bool _ _)]; reflexivity|].
  split; [intros s f H L; rewrite get_some by exact H; cbv zeta;
          rewrite (proj2 (Qltb_iff s f) L); split; reflexivity|].
  split; [intros s f H L W; rewrite get_some by exact H; cbv zeta;
          rewrite (Qltb_false s f L), (proj2 (Qle_bool_iff _ _) W);
          reflexivity|].
  split; [intros s f H L W; rewrite get_some by exact H; cbv zeta;
          rewrite (Qltb_false s f L);
          destruct (Qle_bool (Qabs (s - f) / f) (5 # 100)) eqn:E;
          [apply Qle_bool_iff in E; exfalso; exact (Qlt_not_le _ _ W E)|];
          split; reflexivity|].
  split; [exact range_iff|].
  split; [exact neg_within|].
  vm_compute; repeat split; reflexivity.
Qed.

(** C2 (code bug): for a negative fair value and a non-negative supplier
    value, line 149's test [abs(s - f) / f <= 0.05] always holds, so the
    classifier returns the within-range conclusion whatever the percent
    difference is. With supplier 0 and fair -100 the percent difference is
    -100 (absolute value 100, above 5), displayed "-100.0%" with class
    "diff-negative", yet the conclusion is within range and not needs
    review. *)
Lemma decision_negative_fair :
  (forall s f, (0 <= s)%Q -> (f < 0)%Q ->
     conclusion (get_decision_conclusion s (Some f)) = msg_range) /\
  conclusion (get_decision_conclusion 0 (Some (-100)%Q)) = msg_range /\
  percent_display (get_decision_conclusion 0 (Some (-100)%Q)) = "-100.0%" /\
  diff_class (get_decision_conclusion 0 (Some (-100)%Q)) = "diff-negative" /\
  (5 < Qabs ((0 - -100) / -100 * 100))%Q /\
  conclusion (get_decision_conclusion 0 (Some (-100)%Q)) <> msg_review.
Proof.
  split.
  - intros s f Hs Hf.
    assert (Hne : ~ (f == 0)%Q)
      by (intro E; rewrite E in Hf; exact (Qlt_irrefl 0 Hf)).
    rewrite get_some by exact Hne; cbv zeta.
    assert (Hfs : (f <= s)%Q)
      by (apply Qlt_le_weak, Qlt_le_trans with 0%Q; assumption).
    rewrite (Qltb_false s f Hfs), (proj2 (Qle_bool_iff _ _) (neg_within s f Hf)).
    reflexivity.
  - vm_compute; split; [reflexivity|split; [reflexivity|split; [reflexivity|
      split; [reflexivity|discriminate]]]].
Qed.

End DecisionFacts.

(* ------------------------------------------------------------------ *)
(** ** Facts about the clustering *)

Module ClusterFacts.
Import Text Table.

Definition members (cl : list (string * list string)) : list string :=
  List.concat (map snd cl).

Lemma existsb_eqb_In k l : existsb (String.eqb k) l = true <-> In k l.
Proof.
  rewrite existsb_exists; split.
  - intros [y [Hy E]]; apply String.eqb_eq in E; subst; exact Hy.
  - intros H; exists k; split; [exact H|apply String.eqb_refl].
Qed.

Lemma unique_aux_spec :
  forall l seen,
  (forall k, In k (unique_aux seen l) <-> In k l /\ ~ In k seen) /\
  NoDup (unique_aux seen l).
Proof.
  induction l as [|y l IH]; intros seen; simpl.
  - split; [tauto|constructor].
  - destruct (existsb (String.eqb y) seen) eqn:E.
    + apply existsb_eqb_In in E.
      destruct (IH seen) as [H1 H2]; split; [|exact H2].
      intros k; rewrite H1; split; [tauto|].
      intros [[<-|Hk] Hn]; [contradiction|tauto].
    + destruct (IH (y :: seen)) as [H1 H2]; split.
      * intros k; simpl; rewrite H1; simpl; split.
        -- intros [<-|[Hk Hn]]; [split; [left; reflexivity|]|tauto].
           intros Hy; apply existsb_eqb_In in Hy; congruence.
        -- intros [[<-|Hk] Hn]; [left; reflexivity|].
           destruct (String.eqb_spec y k) as [->|Ne]; [left; reflexivity|].
           right; split; [exact Hk|intros [Q|Q]; [congruence|tauto]].
      * constructor; [|exact H2].
        rewrite H1; intros [_ Hn]; apply Hn; left; reflexivity.
Qed.

Lemma unique_In l k : In k (unique l) <-> In k l.
Proof.
  unfold unique; rewrite (proj1 (unique_aux_spec l [])); simpl; tauto.
Qed.

Lemma unique_NoDup l : NoDup (unique l).
Proof. apply (proj2 (unique_aux_spec l [])). Qed.

Lemma NoDup_app_split {A : Type} :
  forall (l1 l2 : list A), NoDup (l1 ++ l2) ->
  NoDup l1 /\ NoDup l2 /\ (forall x, In x l1 -> ~ In x l2).
Proof.
  induction l1 as [|y l1 IH]; intros l2 H; simpl in *.
  - split; [constructor|split; [exact H|tauto]].
  - inversion H as [|? ? Hy Hn]; subst.
    destruct (IH l2 Hn) as [H1 [H2 H3]].
    split; [constructor; [intros Q; apply Hy, in_or_app; left; exact Q|exact H1]|].
    split; [exact H2|].
    intros x [<-|Hx]; [intros Q; apply Hy, in_or_app; right; exact Q|auto].
Qed.

Lemma NoDup_snoc {A : Type} :
  forall (l : list A) x, NoDup l -> ~ In x l -> NoDup (l ++ [x]).
Proof.
  induction l as [|y l IH]; intros x H Hx; simpl; [constructor; [auto|constructor]|].
  inversion H as [|? ? Hy Hn]; subst; constructor.
  - rewrite in_app_iff; intros [Q|[Q|[]]]; [contradiction|].
    subst; apply Hx; left; reflexivity.
  - apply IH; [exact Hn|intros Q; apply Hx; right; exact Q].
Qed.

(** [subseq l s]: [l] is [s] with some elements left out, the others kept
    in their order. *)
Inductive subseq {A : Type} : list A -> list A -> Prop :=
| subseq_nil : subseq [] []
| subseq_skip x l s : subseq l s -> subseq l (x :: s)
| subseq_take x l s : subseq l s -> subseq (x :: l) (x :: s).

Lemma subseq_nil_l {A : Type} (s : list A) : subseq [] s.
Proof. induction s; constructor; assumption. Qed.

Lemma subseq_snoc_r {A : Type} (l s : list A) k :
  subseq l s -> subseq l (s ++ [k]).
Proof.
  induction 1; simpl; constructor; [constructor|assumption|assumption].
Qed.

Lemma subseq_snoc {A : Type} (l s : list A) k :
  subseq l s -> subseq (l ++ [k]) (s ++ [k]).
Proof.
  induction 1; simpl; constructor; [constructor|assumption|assumption].
Qed.

Lemma subseq_In {A : Type} (l s : list A) x :
  subseq l s -> In x l -> In x s.
Proof.
  induction 1; simpl; [tauto|intros H0; right; auto|].
  intros [<-|H0]; [left; reflexivity|right; auto].
Qed.

(** A subsequence [l] of a list without repetitions is the list filtered
    by membership in [l]. *)
Lemma subseq_filter (l s : list string) :
  subseq l s -> NoDup s -> filter (fun x => existsb (String.eqb x) l) s = l.
Proof.
  induction 1 as [|x l s H IH|x l s H IH]; intros Hn; [reflexivity| |];
    inversion Hn as [|? ? Hx Hn']; subst; simpl.
  - replace (existsb (String.eqb x) l) with false; [exact (IH Hn')|].
    symmetry; apply Bool.not_true_iff_false; intros Q.
    apply existsb_eqb_In in Q; exact (Hx (subseq_In _ _ _ H Q)).
  - rewrite String.eqb_refl; simpl; f_equal.
    transitivity (filter (fun y => existsb (String.eqb y) l) s); [|exact (IH Hn')].
    apply filter_ext_in; intros y Hy; simpl.
    destruct (String.eqb_spec y x) as [->|_]; [contradiction|reflexivity].
Qed.

(** In a subsequence [r :: t] of a list without repetitions, [r] comes
    before every element of [t]. *)
Lemma subseq_head_before (r : string) t pre k post :
  subseq (r :: t) (pre ++ k :: post) -> In k t -> NoDup (pre ++ k :: post) ->
  In r pre.
Proof.
  revert t; induction pre as [|x pre IH]; intros t H Hk Hn; simpl in *.
  - inversion Hn as [|? ? Hx _]; subst.
    inversion H as [|? ? ? H1|? ? ? H1]; subst.
    + exact (Hx (subseq_In _ _ _ H1 (or_intror Hk))).
    + exact (Hx (subseq_In _ _ _ H1 Hk)).
  - inversion Hn as [|? ? _ Hn']; subst.
    inversion H as [|? ? ? H1|? ? ? H1]; subst; [right; exact (IH t H1 Hk Hn')|].
    left; reflexivity.
Qed.

Lemma find_at {A : Type} (p : A -> bool) (l : list A) n d :
  n < List.length l -> p (nth n l d) = true ->
  (forall m, m < n -> p (nth m l d) = false) -> find p l = Some (nth n l d).
Proof.
  revert n; induction l as [|x l IH]; intros n Hn Hp Hm; simpl in *; [lia|].
  destruct n as [|n]; [rewrite Hp; reflexivity|].
  rewrite (Hm 0 ltac:(lia)); apply IH; [lia|exact Hp|].
  intros m Lm; exact (Hm (S m) ltac:(lia)).
Qed.

Lemma find_all_false {A : Type} (p : A -> bool) (l : list A) :
  (forall x, In x l -> p x = false) -> find p l = None.
Proof.
  induction l as [|x l IH]; intros H; simpl; [reflexivity|].
  rewrite (H x (or_introl eq_refl)); apply IH; intros y Hy; apply H; right; exact Hy.
Qed.

Section Ratio.
Variable ratio : string -> string -> Z.

Definition d0 : string * list string := (""%string, []).

Lemma find_rep_none k cl :
  find_rep ratio k cl = None ->
  forall m, m < List.length cl -> (ratio k (fst (nth m cl d0)) < 90)%Z.
Proof.
  induction cl as [|[r l] cl IH]; simpl; intros H m Hm; [lia|].
  destruct (90 <=? ratio k r)%Z eqn:E; [discriminate|].
  destruct m as [|m]; simpl; [apply Z.leb_gt; exact E|apply IH; auto; lia].
Qed.

Lemma find_rep_some k cl rep :
  find_rep ratio k cl = Some rep ->
  exists N, N < List.length cl /\ fst (nth N cl d0) = rep /\
    (90 <= ratio k rep)%Z /\
    forall m, m < N -> (ratio k (fst (nth m cl d0)) < 90)%Z.
Proof.
  induction cl as [|[r l] cl IH]; simpl; intros H; [discriminate|].
  destruct (90 <=? ratio k r)%Z eqn:E.
  - injection H as <-; exists 0; split; [lia|split; [reflexivity|split]].
    + apply Z.leb_le; exact E.
    + intros; lia.
  - destruct (IH H) as [N [H1 [H2 [H3 H4]]]].
    exists (S N); split; [lia|split; [exact H2|split; [exact H3|]]].
    intros [|m] Hm; simpl; [apply Z.leb_gt; exact E|apply H4; lia].
Qed.

Lemma find_rep_In k cl rep :
  find_rep ratio k cl = Some rep -> In rep (map fst cl).
Proof.
  induction cl as [|[r l] cl IH]; simpl; intros H; [discriminate|].
  destruct (90 <=? ratio k r)%Z; [injection H as <-; left; reflexivity|].
  right; auto.
Qed.

Lemma append_to_notin rep k cl :
  ~ In rep (map fst cl) -> append_to rep k cl = cl.
Proof.
  induction cl as [|c cl IH]; simpl; intros H; [reflexivity|].
  destruct (String.eqb_spec (fst c) rep) as [E|E]; [tauto|].
  f_equal; auto.
Qed.

Lemma append_to_perm rep k cl :
  NoDup (map fst cl) -> In rep (map fst cl) ->
  Permutation (members (append_to rep k cl)) (members cl ++ [k]).
Proof.
  unfold members; induction cl as [|c cl IH]; simpl; intros Hn Hr; [contradiction|].
  inversion Hn as [|? ? Hc Hn']; subst.
  destruct (String.eqb_spec (fst c) rep) as [E|E]; simpl.
  - rewrite append_to_notin by (rewrite <- E; exact Hc).
    rewrite <- !app_assoc; apply Permutation_app_head, Permutation_app_comm.
  - destruct Hr as [Hr|Hr]; [contradiction|].
    rewrite <- app_assoc; apply Permutation_app_head; auto.
Qed.

Lemma append_to_fst rep k cl : map fst (append_to rep k cl) = map fst cl.
Proof.
  unfold append_to; rewrite map_map; apply map_ext; intros c.
  destruct (String.eqb (fst c) rep); reflexivity.
Qed.

Lemma append_to_nth rep k cl n :
  n < List.length cl ->
  nth n (append_to rep k cl) d0 =
  if String.eqb (fst (nth n cl d0)) rep
  then (fst (nth n cl d0), snd (nth n cl d0) ++ [k])
  else nth n cl d0.
Proof.
  revert n; induction cl as [|c cl IH]; intros n Hn; simpl in Hn; [lia|].
  destruct n as [|n]; [reflexivity|apply IH; lia].
Qed.

(** Greedy first match: a key of the cluster at position [n] scored below
    90 against every earlier representative, and is the representative or
    scored at least 90 against it. *)
Definition fm (cl : list (string * list string)) : Prop :=
  forall n, n < List.length cl -> forall k, In k (snd (nth n cl d0)) ->
  (forall m, m < n -> (ratio k (fst (nth m cl d0)) < 90)%Z) /\
  (k = fst (nth n cl d0) \/ (90 <= ratio k (fst (nth n cl d0)))%Z).

(** The invariant of the loop after the distinct keys [ks]. *)
Definition cinv (cl : list (string * list string)) (ks : list string) : Prop :=
  (forall k, In k (members cl) <-> In k ks /\ k <> ""%string) /\
  NoDup (members cl) /\
  (forall c, In c cl -> exists t, snd c = fst c :: t) /\
  NoDup (map fst cl) /\
  fm cl.

Lemma reps_members cl :
  (forall c, In c cl -> exists t, snd c = fst c :: t) ->
  forall r, In r (map fst cl) -> In r (members cl).
Proof.
  intros H r Hr; apply in_map_iff in Hr as [c [<- Hc]].
  unfold members; apply in_concat; exists (snd c); split.
  - apply in_map; exact Hc.
  - destruct (H c Hc) as [t ->]; left; reflexivity.
Qed.

Lemma members_snoc cl c : members (cl ++ [c]) = members cl ++ snd c.
Proof. unfold members; rewrite map_app, concat_app; simpl; rewrite app_nil_r; reflexivity. Qed.

Lemma add_key_cinv cl ks k :
  cinv cl ks -> ~ In k ks -> cinv (add_key ratio cl k) (ks ++ [k]).
Proof.
  intros [I1 [I2 [I3 [I4 I5]]]] Hk; unfold add_key.
  assert (Km : ~ In k (members cl)) by (rewrite I1; tauto).
  destruct (String.eqb_spec k "") as [->|Hne].
  { split; [|split; [exact I2|split; [exact I3|split; [exact I4|exact I5]]]].
    intros k0; rewrite I1, in_app_iff; simpl; split; [tauto|].
    intros [[Q|[Q|[]]] N]; [auto|subst; contradiction]. }
  destruct (find_rep ratio k cl) as [rep|] eqn:F.
  - pose proof (append_to_perm rep k cl I4 (find_rep_In k cl rep F)) as P.
    assert (Fst : forall m, m < List.length cl ->
              fst (nth m (append_to rep k cl) d0) = fst (nth m cl d0))
      by (intros m Hm; rewrite append_to_nth by exact Hm;
          destruct (String.eqb _ _); reflexivity).
    split; [|split; [|split; [|split]]].
    + intros k0; split; intros H0.
      * apply (Permutation_in _ P), in_app_iff in H0 as [H0|[<-|[]]].
        -- apply I1 in H0; rewrite in_app_iff; tauto.
        -- rewrite in_app_iff; split; [right; left|]; auto.
      * apply (Permutation_in _ (Permutation_sym P)), in_app_iff.
        rewrite in_app_iff in H0; destruct H0 as [[H0|[<-|[]]] N];
          [left; apply I1; auto|right; left; reflexivity].
    + apply (Permutation_NoDup (Permutation_sym P)), NoDup_snoc; auto.
    + intros c Hc; unfold append_to in Hc; apply in_map_iff in Hc as [c0 [<- Hc0]].
      destruct (String.eqb (fst c0) rep); [|auto].
      destruct (I3 c0 Hc0) as [t Ht]; exists (t ++ [k]); simpl; rewrite Ht;
        reflexivity.
    + rewrite append_to_fst; exact I4.
    + intros n Hn k0 Hk0.
      unfold append_to in Hn; rewrite length_map in Hn.
      rewrite (append_to_nth rep k cl n Hn) in Hk0 |- *.
      assert (Old : In k0 (snd (nth n cl d0)) ->
        (forall m, m < n -> (ratio k0 (fst (nth m (append_to rep k cl) d0)) < 90)%Z) /\
        (k0 = fst (nth n cl d0) \/ (90 <= ratio k0 (fst (nth n cl d0)))%Z)).
      { intros H0; destruct (I5 n Hn k0 H0) as [A B]; split; [|exact B].
        intros m Hm; rewrite Fst by lia; apply A; exact Hm. }
      destruct (String.eqb_spec (fst (nth n cl d0)) rep) as [E|E]; [|apply Old; exact Hk0].
      simpl in Hk0 |- *; apply in_app_iff in Hk0 as [Hk0|[<-|[]]]; [apply Old; exact Hk0|].
      destruct (find_rep_some k cl rep F) as [N [N1 [N2 [N3 N4]]]].
      assert (n = N) as ->.
      { apply (proj1 (NoDup_nth (map fst cl) (fst d0)) I4);
          rewrite ?length_map; auto.
        rewrite !map_nth; congruence. }
      split; [intros m Hm; rewrite Fst by lia; apply N4; exact Hm|].
      right; rewrite E; exact N3.
  - split; [|split; [|split; [|split]]].
    + intros k0; rewrite members_snoc, !in_app_iff, I1; simpl; split.
      * intros [[H0 N]|[<-|[]]]; [tauto|split; [right; left|]; auto].
      * intros [[H0|[<-|[]]] N]; [left; auto|right; left; reflexivity].
    + rewrite members_snoc; apply NoDup_snoc; auto.
    + intros c Hc; apply in_app_iff in Hc as [Hc|[<-|[]]]; [auto|exists []; reflexivity].
    + rewrite map_app; apply NoDup_snoc; [exact I4|].
      intros Q; apply Km, reps_members; auto.
    + intros n Hn k0 Hk0; rewrite length_app in Hn; simpl in Hn.
      destruct (Nat.lt_ge_cases n (List.length cl)) as [L|L].
      * rewrite app_nth1 in Hk0 by exact L.
        destruct (I5 n L k0 Hk0) as [A B]; split.
        -- intros m Hm; rewrite app_nth1 by lia; apply A; exact Hm.
        -- rewrite app_nth1 by exact L; exact B.
      * assert (n = List.length cl) as -> by lia.
        rewrite app_nth2 in Hk0 |- * by lia; rewrite Nat.sub_diag in Hk0 |- *.
        simpl in Hk0 |- *; destruct Hk0 as [<-|[]]; split; [|left; reflexivity].
        intros m Hm; rewrite app_nth1 by exact Hm; apply find_rep_none; auto.
Qed.

Lemma fold_cinv :
  forall rest ks cl, cinv cl ks -> NoDup (ks ++ rest) ->
  cinv (fold_left (add_key ratio) rest cl) (ks ++ rest).
Proof.
  induction rest as [|k rest IH]; intros ks cl H Hn; simpl.
  - rewrite app_nil_r; exact H.
  - replace (ks ++ k :: rest) with ((ks ++ [k]) ++ rest)
      by (rewrite <- app_assoc; reflexivity).
    apply IH; [|rewrite <- app_assoc; exact Hn].
    apply add_key_cinv; [exact H|].
    destruct (NoDup_app_split ks (k :: rest) Hn) as [_ [_ D]].
    intros Q; apply (D k Q); left; reflexivity.
Qed.

Lemma clustering_cinv keys : cinv (clustering ratio keys) (unique keys).
Proof.
  unfold clustering; apply (fold_cinv (unique keys) [] []); [|apply unique_NoDup].
  split; [|split; [constructor|split; [intros _ []|split; [constructor|]]]].
  - intros k; simpl; tauto.
  - intros n Hn; simpl in Hn; lia.
Qed.

(** The order invariant of the loop: the representatives, and the keys of
    each cluster, come in the order the distinct keys were scanned. *)
Definition oinv (cl : list (string * list string)) (ks : list string) : Prop :=
  subseq (map fst cl) ks /\ (forall c, In c cl -> subseq (snd c) ks).

Lemma add_key_oinv cl ks k :
  oinv cl ks -> oinv (add_key ratio cl k) (ks ++ [k]).
Proof.
  intros [O1 O2]; unfold add_key.
  destruct (String.eqb k "").
  { split; [apply subseq_snoc_r; exact O1|intros c Hc; apply subseq_snoc_r; auto]. }
  destruct (find_rep ratio k cl) as [rep|].
  - split; [rewrite append_to_fst; apply subseq_snoc_r; exact O1|].
    intros c Hc; unfold append_to in Hc; apply in_map_iff in Hc as [c0 [<- Hc0]].
    destruct (String.eqb (fst c0) rep); simpl;
      [apply subseq_snoc|apply subseq_snoc_r]; auto.
  - split; [rewrite map_app; apply subseq_snoc; exact O1|].
    intros c Hc; apply in_app_iff in Hc as [Hc|[<-|[]]];
      [apply subseq_snoc_r; auto|].
    apply (subseq_snoc []), subseq_nil_l.
Qed.

Lemma fold_oinv :
  forall rest ks cl, oinv cl ks ->
  oinv (fold_left (add_key ratio) rest cl) (ks ++ rest).
Proof.
  induction rest as [|k rest IH]; intros ks cl H; simpl.
  - rewrite app_nil_r; exact H.
  - replace (ks ++ k :: rest) with ((ks ++ [k]) ++ rest)
      by (rewrite <- app_assoc; reflexivity).
    apply IH, add_key_oinv, H.
Qed.

Lemma clustering_oinv keys : oinv (clustering ratio keys) (unique keys).
Proof.
  unfold clustering; apply (fold_oinv (unique keys) [] []).
  split; [constructor|intros _ []].
Qed.

Lemma members_cons c cl : members (c :: cl) = snd c ++ members cl.
Proof. reflexivity. Qed.

Lemma cluster_count cl k :
  NoDup (members cl) ->
  List.length (filter (fun c => existsb (String.eqb k) (snd c)) cl) =
  if existsb (String.eqb k) (members cl) then 1 else 0.
Proof.
  induction cl as [|c cl IH]; intros Hn; [reflexivity|].
  rewrite members_cons in Hn |- *; rewrite existsb_app; simpl.
  destruct (NoDup_app_split _ _ Hn) as [_ [Hn2 D]].
  destruct (existsb (String.eqb k) (snd c)) eqn:E; simpl; rewrite (IH Hn2);
    [|reflexivity].
  destruct (existsb (String.eqb k) (members cl)) eqn:E2; [|reflexivity].
  apply existsb_eqb_In in E, E2; destruct (D k E E2).
Qed.

Lemma key_pairs_In cl k r :
  In (k, r) (key_pairs cl) <-> exists c, In c cl /\ In k (snd c) /\ r = fst c.
Proof.
  unfold key_pairs; rewrite in_concat; split.
  - intros [l [Hl Hk]]; apply in_map_iff in Hl as [c [<- Hc]].
    apply in_map_iff in Hk as [k' [E Hk']]; injection E as E1 E2; subst.
    exists c; auto.
  - intros [c [Hc [Hk ->]]]; exists (map (fun k0 => (k0, fst c)) (snd c)); split.
    + apply in_map_iff; exists c; auto.
    + apply in_map_iff; exists k; auto.
Qed.

Lemma member_unique cl c c' k :
  NoDup (members cl) -> In c cl -> In c' cl -> In k (snd c) -> In k (snd c') ->
  c = c'.
Proof.
  induction cl as [|c0 cl IH]; intros Hn Hc Hc' Hk Hk'; [destruct Hc|].
  rewrite members_cons in Hn; destruct (NoDup_app_split _ _ Hn) as [_ [Hn2 D]].
  assert (M : forall c1, In c1 cl -> In k (snd c1) -> In k (members cl))
    by (intros c1 H1 H2; unfold members; apply in_concat; exists (snd c1);
        split; [apply in_map|]; auto).
  destruct Hc as [<-|Hc], Hc' as [<-|Hc']; auto.
  - destruct (D k Hk (M c' Hc' Hk')).
  - destruct (D k Hk' (M c Hc Hk)).
Qed.

Lemma key_to_rep_member cl c k :
  NoDup (members cl) -> In c cl -> In k (snd c) -> key_to_rep cl k = Some (fst c).
Proof.
  intros Hn Hc Hk; unfold key_to_rep.
  destruct (find (fun p => String.eqb (fst p) k) (rev (key_pairs cl))) as [[k' r]|] eqn:F.
  - apply find_some in F as [Hin E]; apply String.eqb_eq in E; simpl in E; subst k'.
    apply in_rev, key_pairs_In in Hin as [c' [Hc' [Hk' ->]]].
    rewrite (member_unique cl c' c k Hn Hc' Hc Hk' Hk); reflexivity.
  - assert (Hin : In (k, fst c) (rev (key_pairs cl)))
      by (rewrite <- in_rev; apply key_pairs_In; exists c; auto).
    pose proof (find_none _ _ F _ Hin) as E; simpl in E.
    rewrite String.eqb_refl in E; discriminate.
Qed.

Lemma key_to_rep_absent cl k :
  ~ In k (members cl) -> key_to_rep cl k = None.
Proof.
  intros Hk; unfold key_to_rep.
  destruct (find (fun p => String.eqb (fst p) k) (rev (key_pairs cl))) as [[k' r]|] eqn:F;
    [|reflexivity].
  apply find_some in F as [Hin E]; apply String.eqb_eq in E; simpl in E; subst k'.
  apply in_rev, key_pairs_In in Hin as [c [Hc [Hk' _]]].
  exfalso; apply Hk; unfold members; apply in_concat; exists (snd c);
    split; [apply in_map|]; auto.
Qed.

(** The scan-order rule: for the distinct keys [pre ++ k :: post] in order
    of first occurrence, a non-empty key [k] is mapped to the first
    representative created before it (one of [pre]) that scores at least 90
    with it, and to itself when there is none. *)
Lemma greedy_rule keys pre k post :
  let cl := clustering ratio keys in
  unique keys = pre ++ k :: post -> k <> ""%string ->
  key_to_rep cl k =
    Some (match find (fun r => (90 <=? ratio k r)%Z)
                  (filter (fun r => existsb (String.eqb r) (map fst cl)) pre) with
          | Some r => r
          | None => k
          end).
Proof.
  intros cl HU Hk.
  destruct (clustering_cinv keys) as [I1 [I2 [I3 [I4 I5]]]]; fold cl in I1, I2, I3, I4, I5.
  destruct (clustering_oinv keys) as [O1 O2]; fold cl in O1, O2.
  pose proof (unique_NoDup keys) as NU; rewrite HU in NU.
  set (isrep := fun r => existsb (String.eqb r) (map fst cl)).
  pose proof (subseq_filter _ _ O1 (unique_NoDup keys)) as F.
  rewrite HU, filter_app in F; fold isrep in F.
  set (P := filter isrep pre) in F |- *.
  assert (HP : forall m, m < List.length P ->
            nth m P ""%string = fst (nth m cl d0)).
  { intros m Hm; change ""%string with (fst d0); rewrite <- (map_nth fst cl d0 m), <- F.
    rewrite app_nth1 by exact Hm; reflexivity. }
  assert (Km : In k (members cl)).
  { apply I1; split; [rewrite HU; apply in_or_app; right; left; reflexivity|exact Hk]. }
  unfold members in Km; apply in_concat in Km as [l [Hl Hkl]].
  apply in_map_iff in Hl as [c [<- Hc]].
  rewrite (key_to_rep_member cl c k I2 Hc Hkl).
  destruct (In_nth cl c d0 Hc) as [n [Hn Hnc]].
  rewrite <- Hnc in Hkl; destruct (I5 n Hn k Hkl) as [Before Match]; rewrite Hnc in Match.
  assert (Idx : forall j, j < List.length cl -> fst (nth j cl d0) = fst c -> j = n).
  { intros j Hj E.
    apply (proj1 (NoDup_nth (map fst cl) (fst d0)) I4); rewrite ?length_map; auto.
    rewrite !map_nth, E, Hnc; reflexivity. }
  assert (LP : List.length P <= List.length cl).
  { rewrite <- (length_map fst cl), <- F, length_app; lia. }
  destruct (String.eqb_spec k (fst c)) as [Self|Ne].
  - (* [k] is the representative of its cluster *)
    assert (Rk : isrep k = true)
      by (apply existsb_eqb_In; rewrite Self; apply in_map; exact Hc).
    assert (Pn : List.length P = n).
    { apply Idx.
      - assert (List.length (filter isrep (k :: post)) > 0)
          by (simpl; rewrite Rk; simpl; lia).
        rewrite <- (length_map fst cl), <- F, length_app; lia.
      - rewrite <- Self.
        transitivity (nth (List.length P) (map fst cl) (fst d0));
          [rewrite map_nth; reflexivity|].
        rewrite <- F, app_nth2 by lia; rewrite Nat.sub_diag; simpl.
        rewrite Rk; reflexivity. }
    rewrite find_all_false; [rewrite Self; reflexivity|].
    intros x Hx; destruct (In_nth P x ""%string Hx) as [m [Hm <-]].
    rewrite HP by exact Hm; apply Z.leb_gt, Before; lia.
  - (* [k] joined the cluster of a representative scanned before it *)
    destruct Match as [Self|Self]; [contradiction|].
    destruct (I3 c Hc) as [t Ht].
    assert (Kt : In k t)
      by (rewrite Hnc, Ht in Hkl; destruct Hkl as [E|E]; [congruence|exact E]).
    pose proof (O2 c Hc) as Oc; rewrite Ht, HU in Oc.
    pose proof (subseq_head_before _ _ _ _ _ Oc Kt NU) as Rp.
    assert (RP : In (fst c) P).
    { apply filter_In; split; [exact Rp|].
      apply existsb_eqb_In, in_map; exact Hc. }
    destruct (In_nth P (fst c) ""%string RP) as [j [Hj Hjc]].
    assert (j = n) as ->
      by (apply Idx; [lia|rewrite <- HP by exact Hj; exact Hjc]).
    rewrite (find_at _ P n ""%string Hj).
    + rewrite Hjc; reflexivity.
    + rewrite Hjc; apply Z.leb_le; exact Self.
    + intros m Hm; rewrite HP by lia; apply Z.leb_gt, Before; exact Hm.
Qed.

(** C3. The greedy clustering of lines 79-91 partitions the distinct
    non-empty keys: the members of the clusters are exactly the non-empty
    keys, each such key lies in exactly one cluster and occurs once; each
    cluster starts with its representative; a key of the [n]-th cluster
    scored below 90 against every earlier representative and is the
    representative or scored at least 90 against it (first match, not best
    match). The distinct keys are scanned in first-occurrence order
    ([unique keys]): the representatives, and the keys of each cluster,
    appear in that order; and for the distinct keys [pre ++ k :: post], a
    non-empty [k] is mapped by [key_to_rep] to the first representative
    created before it (one of [pre]) that scores at least 90 with it, and
    to itself (a new cluster) when there is none. [key_to_rep] sends every
    member to its cluster's representative and the empty key to NaN. *)
Theorem clustering_partition_first_match (keys : list string) :
  let cl := clustering ratio keys in
  (forall k, In k (members cl) <-> In k keys /\ k <> ""%string) /\
  (forall k, In k keys -> k <> ""%string ->
     List.length (filter (fun c => existsb (String.eqb k) (snd c)) cl) = 1) /\
  NoDup (members cl) /\
  NoDup (map fst cl) /\
  (forall c, In c cl -> exists t, snd c = fst c :: t) /\
  fm cl /\
  subseq (map fst cl) (unique keys) /\
  (forall c, In c cl -> subseq (snd c) (unique keys)) /\
  (forall pre k post, unique keys = pre ++ k :: post -> k <> ""%string ->
     key_to_rep cl k =
       Some (match find (fun r => (90 <=? ratio k r)%Z)
                     (filter (fun r => existsb (String.eqb r) (map fst cl)) pre) with
             | Some r => r
             | None => k
             end)) /\
  (forall c k, In c cl -> In k (snd c) -> key_to_rep cl k = Some (fst c)) /\
  key_to_rep cl ""%string = None.
Proof.
  intros cl; destruct (clustering_cinv keys) as [I1 [I2 [I3 [I4 I5]]]]; fold cl in I1, I2, I3, I4, I5.
  assert (J1 : forall k, In k (members cl) <-> In k keys /\ k <> ""%string)
    by (intros k; rewrite I1, unique_In; tauto).
  destruct (clustering_oinv keys) as [O1 O2]; fold cl in O1, O2.
  split; [exact J1|split; [|split; [exact I2|split; [exact I4|split; [exact I3|split; [exact I5|]]]]]].
  2: split; [exact O1|split; [exact O2|split; [exact (greedy_rule keys)|split]]].
  - intros k Hk Hne; rewrite (cluster_count cl k I2).
    replace (existsb (String.eqb k) (members cl)) with true; [reflexivity|].
    symmetry; apply existsb_exists; exists k; split;
      [apply J1; auto|apply String.eqb_refl].
  - intros c k Hc Hk; apply key_to_rep_member; auto.
  - apply key_to_rep_absent; rewrite J1; tauto.
Qed.

End Ratio.

End ClusterFacts.


(* ------------------------------------------------------------------ *)
(** ** The cluster statistics (lines 94-97) *)

Module StatsFacts.
Import Chars Text Decision Table ClusterFacts.

(** [o] is the cluster key [k]. *)
Definition key_is (k : string) (o : option string) : bool :=
  match o with Some k' => String.eqb k' k | None => false end.

(** The records whose combined key [key_to_rep] maps to the cluster [k]. *)
Definition cluster_records (ratio : string -> string -> Z) (recs : list record)
    (k : string) : list record :=
  let cl := clustering ratio (map key_of recs) in
  filter (fun rr => key_is k (key_to_rep cl (key_of rr))) recs.

Definition app_opt {A : Type} (o : option (list A)) (hs : list A) : option (list A) :=
  match o, hs with
  | None, [] => None
  | None, _ => Some hs
  | Some a, _ => Some (a ++ hs)
  end.

Lemma assoc_group_insert k k' h g :
  assoc k (group_insert k' h g) =
  if String.eqb k' k then
    Some (match assoc k g with Some hs => hs ++ [h] | None => [h] end)
  else assoc k g.
Proof.
  induction g as [|[k'' hs] g IH]; simpl.
  - destruct (String.eqb k' k); reflexivity.
  - destruct (String.eqb_spec k'' k') as [->|N1]; simpl.
    + destruct (String.eqb k' k); reflexivity.
    + rewrite IH; destruct (String.eqb_spec k'' k) as [->|N2];
        [destruct (String.eqb_spec k' k); [congruence|reflexivity]|reflexivity].
Qed.

Lemma assoc_groupby_aux k rows : forall g,
  assoc k (fold_left (fun g p => match fst p with
                                 | None => g
                                 | Some k0 => group_insert k0 (snd p) g
                                 end) rows g) =
  app_opt (assoc k g) (map snd (filter (fun p => key_is k (fst p)) rows)).
Proof.
  induction rows as [|[o h] rows IH]; intros g; simpl.
  - destruct (assoc k g); simpl; [rewrite app_nil_r|]; reflexivity.
  - rewrite IH; destruct o as [k0|]; simpl; [|reflexivity].
    rewrite assoc_group_insert; destruct (String.eqb k0 k); simpl; [|reflexivity].
    destruct (assoc k g); simpl; [rewrite <- app_assoc|]; reflexivity.
Qed.

Lemma assoc_groupby k rows :
  assoc k (groupby rows) =
  match map snd (filter (fun p => key_is k (fst p)) rows) with
  | [] => None
  | hs => Some hs
  end.
Proof.
  unfold groupby; rewrite assoc_groupby_aux; simpl.
  destruct (map snd _); reflexivity.
Qed.

Lemma assoc_hours_table k rows :
  assoc k (hours_table rows) = option_map mean_count (assoc k (groupby rows)).
Proof.
  unfold hours_table; induction (groupby rows) as [|[k' hs] g IH]; simpl;
    [reflexivity|].
  destruct (String.eqb k' k); [reflexivity|exact IH].
Qed.

Lemma map_snd_filter_map {A B C : Type} (f : A -> B) (g : A -> C) (P : B -> bool) l :
  map snd (filter (fun p => P (fst p)) (map (fun x => (f x, g x)) l)) =
  map g (filter (fun x => P (f x)) l).
Proof.
  induction l as [|x l IH]; simpl; [reflexivity|].
  destruct (P (f x)); simpl; rewrite IH; reflexivity.
Qed.

Lemma key_is_refl k : key_is k (Some k) = true.
Proof. apply String.eqb_refl. Qed.

(** Three records of one repair with 10, 12 and 14 hours. *)
Definition seal_records : list record :=
  map (fun h => mk_record (CStr "Seal leaking") (CStr "Replaced seal") (Some h))
      [10; 12; 14]%Q.

(** Two records of one repair, the second without hours. *)
Definition seal_records_nan : list record :=
  [mk_record (CStr "Seal leaking") (CStr "Replaced seal") (Some 10%Q);
   mk_record (CStr "Seal leaking") (CStr "Replaced seal") None].

(** C5. Every row of the reference table whose cluster key is [k] carries,
    as 'Actual Historic Hours', the mean of the hours present among the
    records that [key_to_rep] maps to [k] (NaN when there is none), as
    'Occurrences' the number of those present hours, and as
    'Fair Quote (hrs)' that mean rounded to two decimals; a row whose
    cluster key is NaN gets NaN in all three. The hours are exact
    rationals here: the rounding of the float sum is not modelled. For three
    records of one key with 10, 12 and 14 hours the fair quote is 12 and
    the count 3. *)
Theorem build_table_cluster_stats :
  (forall (ratio : string -> string -> Z) (recs : list record),
   Forall (fun r =>
    match cluster_key r with
    | None => historic r = None /\ occurrences r = None /\ fair_quote r = None
    | Some k =>
        let hs := map total_hours (cluster_records ratio recs k) in
        historic r = fst (mean_count hs) /\
        occurrences r = Some (snd (mean_count hs)) /\
        fair_quote r = option_map round2 (fst (mean_count hs))
    end) (build_table ratio recs)) /\
  (forall ratio : string -> string -> Z,
   map (fun r => (option_map Qred (fair_quote r), occurrences r))
       (build_table ratio seal_records) =
   [(Some 12%Q, Some 3); (Some 12%Q, Some 3); (Some 12%Q, Some 3)]).
Proof.
  split; [intros ratio recs|intros ratio; vm_compute; reflexivity].
  unfold build_table; rewrite Forall_forall; intros r Hr.
  apply in_map_iff in Hr as [x [<- Hx]].
  cbv beta zeta.
  destruct (key_to_rep _ (key_of x)) as [k|] eqn:K; unfold merged; [|cbn; auto].
  rewrite assoc_hours_table, assoc_groupby, (map_snd_filter_map _ total_hours).
  assert (Hin : In x (cluster_records ratio recs k))
    by (apply filter_In; split; [exact Hx|rewrite K; apply key_is_refl]).
  unfold cluster_records in *.
  destruct (map total_hours _) as [|h hs] eqn:E.
  - apply map_eq_nil in E; rewrite E in Hin; destruct Hin.
  - cbn -[mean_count key_of key_to_rep clustering].
    destruct (mean_count (h :: hs)) as [m c] eqn:M.
    cbn -[mean_count key_of key_to_rep clustering].
    rewrite E, M; auto.
Qed.

(** A record without hours is still a record of its cluster, but
    'Occurrences' does not count it: two records of one key, one with 10
    hours and one with NaN, give 'Occurrences' 1. *)
Lemma occurrences_skip_missing_hours :
  let ratio := fun _ _ : string => 0%Z in
  List.length (cluster_records ratio seal_records_nan "SEAL LEAKING | REPLACED SEAL") = 2 /\
  map occurrences (build_table ratio seal_records_nan) = [Some 1; Some 1] /\
  map (fun r => option_map Qred (historic r)) (build_table ratio seal_records_nan)
    = [Some 10%Q; Some 10%Q].
Proof. vm_compute; auto. Qed.

End StatsFacts.


(* ------------------------------------------------------------------ *)
(** ** The combined key (lines 74-76) *)

Module KeyFacts.
Import Chars Text Table.
Local Open Scope string_scope.

(** A record whose two text cells are NaN. *)
Definition nan_record : record := mk_record CNaN CNaN None.

(** A record whose two text cells are empty strings. *)
Definition blank_record : record := mk_record (CStr "") (CStr "") None.

(** C10. Every combined key is a normalised discrepancy, the separator
    [" | "] and a normalised corrective action, so it is never empty. A
    record with two empty text cells gets the key [" | "]; but a record with
    two missing (NaN) cells gets ["NAN | "]: line 75 applies [str] before
    [normalize_text], so the NaN discrepancy becomes the text ["nan"]. That
    record is clustered under its own key. *)
Theorem combined_key_shape :
  (forall r, exists a b, key_of r = a ++ " | " ++ b) /\
  (forall r, key_of r <> "") /\
  key_of blank_record = " | " /\
  key_of nan_record = "NAN | " /\
  key_of nan_record <> " | " /\
  (forall ratio : string -> string -> Z,
     map cluster_key (build_table ratio [nan_record]) = [Some "NAN | "]).
Proof.
  split; [intros r; exists (norm_disc_of (description r)),
            (norm_corr_of (corrective_action r)); reflexivity|].
  split; [intros r; unfold key_of, combine_key;
          destruct (norm_disc_of (description r)); discriminate|].
  split; [vm_compute; reflexivity|].
  split; [vm_compute; reflexivity|].
  split; [vm_compute; discriminate|].
  intros ratio; vm_compute; reflexivity.
Qed.

End KeyFacts.

(* ------------------------------------------------------------------ *)
(** ** The match tiers (lines 155-238) *)

Module MatchFacts.
Import Chars Text Difflib Decision Table Matcher DecisionFacts.
Local Open Scope string_scope.

Lemma semantic_overlap_cell_str a s :
  semantic_overlap_cell a (CStr s) = Some (semantic_overlap a s).
Proof.
  unfold semantic_overlap_cell, semantic_overlap.
  destruct (String.eqb a ""); reflexivity.
Qed.

Lemma map_opt_some {A B : Type} (f : A -> B) (l : list A) :
  map_opt (fun x => Some (f x)) l = Some (map f l).
Proof. induction l as [|x l IH]; simpl; [|rewrite IH]; reflexivity. Qed.

Lemma map_opt_ext {A B : Type} (f g : A -> option B) (l : list A) :
  (forall x, f x = g x) -> map_opt f l = map_opt g l.
Proof. intros H; induction l as [|x l IH]; simpl; [|rewrite H, IH]; reflexivity. Qed.

Lemma overlap_column_rows nd nc tbl :
  tbl <> [] -> overlap_column nd nc tbl = Some (map (total_similarity nd nc) tbl).
Proof.
  intros H; destruct tbl as [|r tbl]; [contradiction|].
  unfold overlap_column; rewrite <- map_opt_some; apply map_opt_ext; intros x.
  unfold total_similarity_cell, total_similarity;
    rewrite !semantic_overlap_cell_str; reflexivity.
Qed.

Lemma combine_map {A B : Type} (l : list A) (f : A -> B) :
  combine l (map f l) = map (fun x => (x, f x)) l.
Proof. induction l as [|x l IH]; simpl; [|rewrite IH]; reflexivity. Qed.

Lemma overlap_column_empty nd nc :
  nd <> "" -> overlap_column nd nc [] = None.
Proof.
  intros H; unfold overlap_column, total_similarity_cell, semantic_overlap_cell.
  apply String.eqb_neq in H; rewrite H; reflexivity.
Qed.

(** C1 (the empty table). On a reference table without rows, a query whose
    discrepancy does not normalise to the empty string raises: line 171
    assigns to the column 'Overlap' the frame that [DataFrame.apply] returns
    when its probe of [total_similarity] on a row of NaN fails, and no tier
    is reached. *)
Theorem match_query_empty_table_raises
    (sort_desc : list (row * Q) -> list (row * Q)) (disc corr : string) (supplier : Q) :
  disc <> "" -> corr <> "" ->
  normalize_text (CStr (remove_ref disc)) <> "" ->
  match_query sort_desc [] disc corr supplier = None.
Proof.
  intros Hd Hc Hn; unfold match_query.
  apply String.eqb_neq in Hd, Hc; rewrite Hd, Hc; cbn [orb]; cbv zeta.
  rewrite overlap_column_empty by exact Hn; reflexivity.
Qed.

Lemma match_query_empty_table_raises_witness :
  "Crack found in skin panel" <> "" /\ "Replaced panel" <> "" /\
  normalize_text (CStr (remove_ref "Crack found in skin panel")) <> "" /\
  match_query (fun l => l) [] "Crack found in skin panel" "Replaced panel" 10 = None.
Proof.
  split; [discriminate|split; [discriminate|split; [vm_compute; discriminate|]]].
  apply (match_query_empty_table_raises (fun l => l)); [discriminate|discriminate|].
  vm_compute; discriminate.
Defined.

(** The query's normalised texts, its combined key and the overlap of a row
    (lines 156-170). *)
Definition q_nd (disc : string) : string := normalize_text (CStr (remove_ref disc)).
Definition q_nc (corr : string) : string := normalize_text (CStr corr).
Definition q_ci (disc corr : string) : string := combine_key (q_nd disc) (q_nc corr).
Definition q_overlap (disc corr : string) (r : row) : Q :=
  total_similarity (q_nd disc) (q_nc corr) r.

(** The rows kept by line 172, with their overlap. *)
Definition candidates (tbl : list row) (disc corr : string) : list (row * Q) :=
  filter (fun p => Qle_bool 55 (snd p) &&
                   negb (String.eqb (combined_key (fst p)) (q_ci disc corr)))
         (map (fun r => (r, q_overlap disc corr r)) tbl).

(** Decreasing overlap. *)
Definition desc (p q : row * Q) : Prop := (snd q <= snd p)%Q.

(** An insertion sort by decreasing overlap: one sort that meets the
    assumptions made on [sort_values]. *)
Fixpoint insert_desc (p : row * Q) (l : list (row * Q)) : list (row * Q) :=
  match l with
  | [] => [p]
  | q :: l' => if Qle_bool (snd q) (snd p) then p :: l else q :: insert_desc p l'
  end.

Definition isort (l : list (row * Q)) : list (row * Q) := fold_right insert_desc [] l.

Lemma insert_desc_perm p l : Permutation (insert_desc p l) (p :: l).
Proof.
  induction l as [|q l IH]; simpl; [reflexivity|].
  destruct (Qle_bool (snd q) (snd p)); [reflexivity|].
  eapply perm_trans; [apply perm_skip, IH|apply perm_swap].
Qed.

Lemma isort_perm l : Permutation (isort l) l.
Proof.
  induction l as [|p l IH]; simpl; [reflexivity|].
  eapply perm_trans; [apply insert_desc_perm|apply perm_skip, IH].
Qed.

Lemma insert_desc_sorted p l : Sorted desc l -> Sorted desc (insert_desc p l).
Proof.
  induction 1 as [|q l Hs IH Hh]; simpl; [repeat constructor|].
  destruct (Qle_bool (snd q) (snd p)) eqn:E.
  - constructor; [constructor; assumption|constructor; apply Qle_bool_iff, E].
  - assert (L : (snd p <= snd q)%Q).
    { apply Qlt_le_weak, Qnot_le_lt; intros Q; apply Qle_bool_iff in Q; congruence. }
    constructor; [exact IH|].
    destruct l as [|r l]; simpl; [constructor; exact L|].
    destruct (Qle_bool (snd r) (snd p)); constructor; [exact L|inversion Hh; assumption].
Qed.

Lemma isort_sorted l : Sorted desc (isort l).
Proof. induction l as [|p l IH]; simpl; [constructor|apply insert_desc_sorted, IH]. Qed.

Lemma filter_map_nil {A B : Type} (P : B -> bool) (g : A -> B) l :
  filter P (map g l) = [] <-> forall x, In x l -> P (g x) = false.
Proof.
  induction l as [|x l IH]; simpl; [split; [intros _ _ []|reflexivity]|].
  destruct (P (g x)) eqn:E; split.
  - discriminate.
  - intros H; rewrite (H x (or_introl eq_refl)) in E; discriminate.
  - intros H y [<-|Hy]; [exact E|apply IH; auto].
  - intros H; apply IH; auto.
Qed.

Lemma StronglySorted_app_cross {A : Type} (R : A -> A -> Prop) a b :
  StronglySorted R (a ++ b) -> forall x y, In x a -> In y b -> R x y.
Proof.
  induction a as [|z a IH]; simpl; intros H x y Hx Hy; [destruct Hx|].
  apply StronglySorted_inv in H as [H F]; destruct Hx as [<-|Hx].
  - rewrite Forall_forall in F; apply F, in_app_iff; auto.
  - apply IH; auto.
Qed.

Lemma StronglySorted_app_l {A : Type} (R : A -> A -> Prop) a b :
  StronglySorted R (a ++ b) -> StronglySorted R a.
Proof.
  induction a as [|z a IH]; simpl; intros H; [constructor|].
  apply StronglySorted_inv in H as [H F]; constructor; [auto|].
  rewrite Forall_forall in F |- *; intros x Hx; apply F, in_app_iff; auto.
Qed.

(** The first [k] elements of a list [L] that is a sorted permutation of
    [l]: [min k |l|] elements, sorted, and the rest of [l] ranks below each
    of them. *)
Lemma top_k_spec k (l L : list (row * Q)) :
  Permutation L l -> Sorted desc L ->
  (exists rest, Permutation (firstn k L ++ rest) l /\
                forall p q, In p (firstn k L) -> In q rest -> desc p q) /\
  List.length (firstn k L) = Nat.min k (List.length l) /\
  Sorted desc (firstn k L).
Proof.
  intros P S.
  assert (T : Transitive desc) by (intros x y z H1 H2; unfold desc in *; eapply Qle_trans; eauto).
  apply Sorted_StronglySorted in S; [|exact T].
  rewrite <- (firstn_skipn k L) in S.
  split; [|split].
  - exists (skipn k L); split; [rewrite firstn_skipn; exact P|].
    apply StronglySorted_app_cross; exact S.
  - rewrite length_firstn, (Permutation_length P); reflexivity.
  - apply StronglySorted_Sorted, (StronglySorted_app_l _ _ _ S).
Qed.

Lemma firstn_S_nil {A : Type} n (l : list A) : firstn (S n) l = [] -> l = [].
Proof. destruct l; [reflexivity|discriminate]. Qed.

Lemma match_query_rows sort_desc tbl disc corr supplier :
  disc <> "" -> corr <> "" -> tbl <> [] ->
  match_query sort_desc tbl disc corr supplier =
  let scored := map (fun r => (r, q_overlap disc corr r)) tbl in
  let exact := filter (fun p => String.eqb (combined_key (fst p)) (q_ci disc corr)) scored in
  let top2 := firstn 2 (sort_desc (candidates tbl disc corr)) in
  let closest := firstn 1 (sort_desc (filter (fun p => Qltb (snd p) 55) scored)) in
  match exact, top2, closest with
  | p :: _, _, _ =>
      Some (mk_outcome (Some EXACT) []
              (Some (get_decision_conclusion supplier (fair_quote (fst p)))) true)
  | [], p :: _, _ =>
      Some (mk_outcome (Some APPROXIMATE) top2
              (Some (get_decision_conclusion supplier (fair_quote (fst p)))) false)
  | [], [], p :: _ =>
      Some (mk_outcome (Some WEAK) closest
              (Some (get_decision_conclusion supplier (fair_quote (fst p)))) true)
  | [], [], [] => Some (mk_outcome None [] None false)
  end.
Proof.
  intros Hd Hc Ht; unfold match_query.
  apply String.eqb_neq in Hd, Hc; rewrite Hd, Hc; cbn [orb]; cbv zeta.
  rewrite overlap_column_rows by exact Ht; cbv beta iota.
  rewrite combine_map; reflexivity.
Qed.

Lemma in_candidates tbl disc corr r x :
  In (r, x) (candidates tbl disc corr) <->
  In r tbl /\ x = q_overlap disc corr r /\ (55 <= x)%Q /\ combined_key r <> q_ci disc corr.
Proof.
  unfold candidates; rewrite filter_In, in_map_iff, andb_true_iff, Qle_bool_iff,
    negb_true_iff, String.eqb_neq; simpl; split.
  - intros [[r' [E Hr]] [H1 H2]]; injection E as <- <-; auto.
  - intros [Hr [-> [H1 H2]]]; split; [exists r; auto|auto].
Qed.

Section Tiers.
(** [sort_values(by='Overlap', ascending=False)]: any sort that permutes
    its input into decreasing overlap. *)
Variable sort_desc : list (row * Q) -> list (row * Q).
Hypothesis sort_perm : forall l, Permutation (sort_desc l) l.
Hypothesis sort_sorted : forall l, Sorted desc (sort_desc l).

Lemma exact_nil_iff tbl disc corr :
  filter (fun p => String.eqb (combined_key (fst p)) (q_ci disc corr))
         (map (fun r => (r, q_overlap disc corr r)) tbl) = [] <->
  forall r, In r tbl -> combined_key r <> q_ci disc corr.
Proof.
  rewrite filter_map_nil; simpl; split; intros H r Hr;
    [apply String.eqb_neq|apply String.eqb_neq]; auto.
Qed.

Lemma candidates_nil_iff tbl disc corr :
  candidates tbl disc corr = [] <->
  forall r, In r tbl -> ~ ((55 <= q_overlap disc corr r)%Q /\ combined_key r <> q_ci disc corr).
Proof.
  split.
  - intros H r Hr [H1 H2]; assert (I : In (r, q_overlap disc corr r) (candidates tbl disc corr))
      by (apply in_candidates; auto).
    rewrite H in I; destruct I.
  - intros H; destruct (candidates tbl disc corr) as [|[r x] l] eqn:E; [reflexivity|].
    assert (I : In (r, x) (candidates tbl disc corr)) by (rewrite E; left; reflexivity).
    apply in_candidates in I as [Hr [-> [H1 H2]]]; destruct (H r Hr); auto.
Qed.

Lemma sort_nil_iff l : sort_desc l = [] <-> l = [].
Proof.
  split; intros H.
  - apply Permutation_nil; rewrite <- H; apply sort_perm.
  - subst; apply Permutation_nil, Permutation_sym, sort_perm.
Qed.

(** C4. For a submitted query on a table with rows, the APPROXIMATE tier
    is selected exactly when no row has the query's combined key and some
    row is a candidate; the candidates are the rows whose combined key
    differs from the query's and whose overlap, the mean of the
    discrepancy overlap and the corrective-action overlap, is at least 55.
    The tier then shows [min 2 (number of candidates)] candidates in
    decreasing overlap, every other candidate ranking below each of them,
    and the decision is [get_decision_conclusion] applied to the fair
    quote of the first one shown. *)
Theorem approximate_tier_spec tbl disc corr supplier :
  disc <> "" -> corr <> "" -> tbl <> [] ->
  (forall r, q_overlap disc corr r =
     ((semantic_overlap (q_nd disc) (norm_disc r) +
       semantic_overlap (q_nc corr) (norm_corr r)) / 2)%Q) /\
  (forall r x, In (r, x) (candidates tbl disc corr) <->
     In r tbl /\ x = q_overlap disc corr r /\ (55 <= x)%Q /\
     combined_key r <> q_ci disc corr) /\
  exists o, match_query sort_desc tbl disc corr supplier = Some o /\
  (selected o = Some APPROXIMATE <->
     (forall r, In r tbl -> combined_key r <> q_ci disc corr) /\
     candidates tbl disc corr <> []) /\
  (selected o = Some APPROXIMATE ->
     (exists rest, Permutation (shown o ++ rest) (candidates tbl disc corr) /\
        forall p q, In p (shown o) -> In q rest -> (snd q <= snd p)%Q) /\
     List.length (shown o) = Nat.min 2 (List.length (candidates tbl disc corr)) /\
     Sorted desc (shown o) /\
     exists p rest, shown o = p :: rest /\
       decision o = Some (get_decision_conclusion supplier (fair_quote (fst p)))).
Proof.
  intros Hd Hc Ht; split; [reflexivity|split; [apply in_candidates|]].
  rewrite match_query_rows by assumption; cbv zeta.
  destruct (filter _ (map _ tbl)) as [|e ex] eqn:E.
  - pose proof (proj1 (exact_nil_iff tbl disc corr) E) as E0; clear E; rename E0 into E.
    destruct (firstn 2 (sort_desc (candidates tbl disc corr))) as [|p top] eqn:T.
    + apply firstn_S_nil, (proj1 (sort_nil_iff _)) in T.
      destruct (firstn 1 _) as [|w ws]; eexists; (split; [reflexivity|]); simpl;
        (split; [split; [discriminate|intros [_ N]; contradiction]|discriminate]).
    + eexists; split; [reflexivity|]; simpl; split.
      * split; [intros _; split; [exact E|]|reflexivity].
        intros N; rewrite N in T; rewrite (proj2 (sort_nil_iff []) eq_refl) in T;
          discriminate.
      * intros _.
        destruct (top_k_spec 2 _ _ (sort_perm (candidates tbl disc corr))
                    (sort_sorted _)) as [A [B C]].
        rewrite T in A, B, C.
        split; [exact A|split; [exact B|split; [exact C|]]].
        exists p, top; split; reflexivity.
  - assert (X : In e (filter (fun p => String.eqb (combined_key (fst p)) (q_ci disc corr))
                        (map (fun r => (r, q_overlap disc corr r)) tbl)))
      by (rewrite E; left; reflexivity).
    apply filter_In in X as [X1 X2]; apply in_map_iff in X1 as [r [<- Hr]].
    apply String.eqb_eq in X2; simpl in X2.
    eexists; split; [reflexivity|]; simpl.
    split; [split; [discriminate|intros [N _]; destruct (N r Hr X2)]|discriminate].
Qed.

(** The tier selection of lines 176-238 on a table with rows: EXACT when
    some row has the query's combined key; otherwise APPROXIMATE when some
    row with another key has overlap at least 55; otherwise WEAK, every
    row then having another key and overlap below 55. Exactly one tier is
    selected. *)
Theorem match_query_tier_priority tbl disc corr supplier :
  disc <> "" -> corr <> "" -> tbl <> [] ->
  exists o, match_query sort_desc tbl disc corr supplier = Some o /\
  selected o <> None /\
  (selected o = Some EXACT <->
     exists r, In r tbl /\ combined_key r = q_ci disc corr) /\
  (selected o = Some APPROXIMATE <->
     (forall r, In r tbl -> combined_key r <> q_ci disc corr) /\
     exists r, In r tbl /\ combined_key r <> q_ci disc corr /\
               (55 <= q_overlap disc corr r)%Q) /\
  (selected o = Some WEAK <->
     forall r, In r tbl -> combined_key r <> q_ci disc corr /\
                           (q_overlap disc corr r < 55)%Q).
Proof.
  intros Hd Hc Ht; rewrite match_query_rows by assumption; cbv zeta.
  destruct tbl as [|r0 tbl0] eqn:Etbl; [contradiction|rewrite <- Etbl in *].
  assert (R0 : In r0 tbl) by (rewrite Etbl; left; reflexivity).
  destruct (filter _ (map _ tbl)) as [|e ex] eqn:E.
  - pose proof (proj1 (exact_nil_iff tbl disc corr) E) as E0; clear E; rename E0 into E.
    assert (NoEx : ~ exists r, In r tbl /\ combined_key r = q_ci disc corr)
      by (intros [r [Hr Hk]]; exact (E r Hr Hk)).
    destruct (firstn 2 (sort_desc (candidates tbl disc corr))) as [|p top] eqn:T.
    + apply firstn_S_nil, (proj1 (sort_nil_iff _)) in T.
      pose proof (proj1 (candidates_nil_iff _ _ _) T) as C.
      assert (Low : forall r, In r tbl -> (q_overlap disc corr r < 55)%Q).
      { intros r Hr; apply Qnot_le_lt; intros H; apply (C r Hr); auto. }
      destruct (firstn 1 (sort_desc (filter (fun p => Qltb (snd p) 55)
                  (map (fun r => (r, q_overlap disc corr r)) tbl)))) as [|w ws] eqn:W.
      * apply firstn_S_nil, (proj1 (sort_nil_iff _)) in W.
        assert (I : In (r0, q_overlap disc corr r0)
                  (filter (fun p => Qltb (snd p) 55) (map (fun r => (r, q_overlap disc corr r)) tbl)))
          by (apply filter_In; split;
              [apply in_map_iff; exists r0; split; [reflexivity|exact R0]
              |apply Qltb_iff, Low, R0]).
        rewrite W in I; destruct I.
      * eexists; split; [reflexivity|]; simpl.
        split; [discriminate|split; [split; [discriminate|intros N; contradiction]|split]].
        -- split; [discriminate|intros [_ [r [Hr [_ H]]]]; exfalso; apply (C r Hr);
                            split; [exact H|apply E, Hr]].
        -- split; [intros _ r Hr; auto|reflexivity].
    + assert (NC : candidates tbl disc corr <> []).
      { intros N; rewrite N in T; rewrite (proj2 (sort_nil_iff []) eq_refl) in T;
          discriminate. }
      eexists; split; [reflexivity|]; simpl.
      split; [discriminate|split; [split; [discriminate|intros N; contradiction]|split]].
      * split; [intros _; split; [exact E|]|reflexivity].
        destruct (candidates tbl disc corr) as [|[r x] l] eqn:Cd; [contradiction|].
        assert (I : In (r, x) (candidates tbl disc corr)) by (rewrite Cd; left; reflexivity).
        apply in_candidates in I as [Hr [-> [H1 H2]]]; exists r; auto.
      * split; [discriminate|intros H; exfalso; apply NC, candidates_nil_iff].
        intros r Hr [H1 H2]; destruct (H r Hr) as [_ L].
        apply (Qlt_not_le _ _ L H1).
  - assert (X : In e (filter (fun p => String.eqb (combined_key (fst p)) (q_ci disc corr))
                        (map (fun r => (r, q_overlap disc corr r)) tbl)))
      by (rewrite E; left; reflexivity).
    apply filter_In in X as [X1 X2]; apply in_map_iff in X1 as [r [<- Hr]].
    apply String.eqb_eq in X2; simpl in X2.
    eexists; split; [reflexivity|]; simpl.
    split; [discriminate|split; [split; [intros _; exists r; auto|reflexivity]|split]].
    + split; [discriminate|intros [N _]; destruct (N r Hr X2)].
    + split; [discriminate|intros N; destruct (N r Hr) as [N' _]; contradiction].
Qed.

End Tiers.

(** A reference table of three records, each its own cluster. *)
Definition ref_records : list record :=
  [mk_record (CStr "Seal leaking") (CStr "Replaced seal") (Some 10%Q);
   mk_record (CStr "Seal leaking badly") (CStr "Replaced seal") (Some 12%Q);
   mk_record (CStr "Panel cracked") (CStr "Repaired panel") (Some 5%Q)].

Definition ref_table : list row := build_table (fun _ _ => 0%Z) ref_records.

Lemma approximate_tier_spec_witness :
  "Seal leaking at door" <> "" /\ "Replaced seal" <> "" /\ ref_table <> [] /\
  ((forall r, q_overlap "Seal leaking at door" "Replaced seal" r =
     ((semantic_overlap (q_nd "Seal leaking at door") (norm_disc r) +
       semantic_overlap (q_nc "Replaced seal") (norm_corr r)) / 2)%Q) /\
  (forall r x, In (r, x) (candidates ref_table "Seal leaking at door" "Replaced seal") <->
     In r ref_table /\ x = q_overlap "Seal leaking at door" "Replaced seal" r /\ (55 <= x)%Q /\
     combined_key r <> q_ci "Seal leaking at door" "Replaced seal") /\
  exists o, match_query isort ref_table "Seal leaking at door" "Replaced seal" 11%Q = Some o /\
  (selected o = Some APPROXIMATE <->
     (forall r, In r ref_table -> combined_key r <> q_ci "Seal leaking at door" "Replaced seal") /\
     candidates ref_table "Seal leaking at door" "Replaced seal" <> []) /\
  (selected o = Some APPROXIMATE ->
     (exists rest, Permutation (shown o ++ rest) (candidates ref_table "Seal leaking at door" "Replaced seal") /\
        forall p q, In p (shown o) -> In q rest -> (snd q <= snd p)%Q) /\
     List.length (shown o) = Nat.min 2 (List.length (candidates ref_table "Seal leaking at door" "Replaced seal")) /\
     Sorted desc (shown o) /\
     exists p rest, shown o = p :: rest /\
       decision o = Some (get_decision_conclusion 11%Q (fair_quote (fst p))))).
Proof.
  split; [discriminate|split; [discriminate|split; [vm_compute; discriminate|]]].
  apply (approximate_tier_spec isort isort_perm isort_sorted);
    [discriminate|discriminate|vm_compute; discriminate].
Defined.

Lemma match_query_tier_priority_witness :
  "Seal leaking at door" <> "" /\ "Replaced seal" <> "" /\ ref_table <> [] /\
  (exists o, match_query isort ref_table "Seal leaking at door" "Replaced seal" 11%Q = Some o /\
  selected o <> None /\
  (selected o = Some EXACT <->
     exists r, In r ref_table /\ combined_key r = q_ci "Seal leaking at door" "Replaced seal") /\
  (selected o = Some APPROXIMATE <->
     (forall r, In r ref_table -> combined_key r <> q_ci "Seal leaking at door" "Replaced seal") /\
     exists r, In r ref_table /\ combined_key r <> q_ci "Seal leaking at door" "Replaced seal" /\
               (55 <= q_overlap "Seal leaking at door" "Replaced seal" r)%Q) /\
  (selected o = Some WEAK <->
     forall r, In r ref_table -> combined_key r <> q_ci "Seal leaking at door" "Replaced seal" /\
                           (q_overlap "Seal leaking at door" "Replaced seal" r < 55)%Q)).
Proof.
  split; [discriminate|split; [discriminate|split; [vm_compute; discriminate|]]].
  apply (match_query_tier_priority isort isort_perm);
    [discriminate|discriminate|vm_compute; discriminate].
Defined.

End MatchFacts.


(* ------------------------------------------------------------------ *)
(** ** More on the normaliser and on [highlight_diff] *)

Module ShapeFacts.
Import Chars Text Difflib Highlight TextFacts.

Lemma upper_not_lower : forall c, is_lower (upper c) = false.
Proof. intros [[] [] [] [] [] [] [] []]; vm_compute; reflexivity. Qed.

Lemma strip_first s c r : strip s = c :: r -> is_space c = false.
Proof.
  intros E; destruct (rstrip_split (lstrip s)) as [w [W _]].
  unfold strip in E; rewrite E in W.
  destruct (lstrip_head s) as [Z|[c' [r' [Z Sp]]]]; rewrite Z in W;
    [discriminate|injection W as -> _; exact Sp].
Qed.

Lemma strip_last s r c : strip s = r ++ [c] -> is_space c = false.
Proof.
  unfold strip, rstrip; intros E.
  apply (f_equal (@rev ascii)) in E; rewrite rev_involutive, rev_app_distr in E.
  simpl in E.
  destruct (lstrip_head (rev (lstrip s))) as [Z|[c' [r' [Z Sp]]]]; rewrite Z in E;
    [discriminate|injection E as -> _; exact Sp].
Qed.

(** The output of [normalize_text], for any cell: no ASCII lower-case
    letter, every whitespace character a single space never next to another
    one, and no whitespace at either end. *)
Theorem normalize_text_shape : forall x,
  let u := list_ascii_of_string (normalize_text x) in
  Forall (fun c => is_lower c = false) u /\
  ws_canon false u /\
  (forall c r, u = c :: r -> is_space c = false) /\
  (forall r c, u = r ++ [c] -> is_space c = false).
Proof.
  intros [|t]; cbn zeta.
  - split; [constructor|split; [exact I|split; intros; [discriminate|]]].
    destruct r; discriminate.
  - cbn [normalize_text]; rewrite list_ascii_of_string_of_list_ascii.
    unfold clean_upper; split; [|split; [|split]].
    + apply Forall_strip, Forall_sub_ws; [reflexivity|].
      unfold remove_dates; apply Forall_sub_dates.
      apply Forall_forall; intros c Hc; apply in_map_iff in Hc as [c' [<- _]].
      apply upper_not_lower.
    + apply strip_canon, sub_ws_canon.
    + intros c r; apply strip_first.
    + intros r c; apply strip_last.
Qed.

(** [string_of_list_ascii] distributes over [++]. *)
Lemma string_of_list_ascii_app a b :
  string_of_list_ascii (a ++ b) = (string_of_list_ascii a ++ string_of_list_ascii b)%string.
Proof. induction a as [|c a IH]; simpl; [reflexivity|rewrite IH; reflexivity]. Qed.

Lemma join_map L : join " "%string (map string_of_list_ascii L) = string_of_list_ascii (joinl L).
Proof.
  induction L as [|w [|w' L] IH]; [reflexivity|reflexivity|].
  change ((string_of_list_ascii w ++ " " ++ join " " (map string_of_list_ascii (w' :: L)))%string =
          string_of_list_ascii (w ++ " "%char :: joinl (w' :: L))).
  rewrite IH, string_of_list_ascii_app; reflexivity.
Qed.

(** Splitting a text in canonical form and joining the words with single
    spaces gives the text back. *)
Lemma split_aux_join : forall s cur,
  Forall (fun c => is_space c = false) cur ->
  ws_canon false s ->
  (cur = [] -> forall c r, s = c :: r -> is_space c = false) ->
  (forall r c, s = r ++ [c] -> is_space c = false) ->
  joinl (split_aux cur s) = rev cur ++ s.
Proof.
  induction s as [|c r IH]; intros cur Fc Hw Hl Ht.
  - simpl; destruct cur; simpl; [reflexivity|rewrite app_nil_r; reflexivity].
  - simpl in Hw |- *; destruct (is_space c) eqn:Sp.
    + destruct Hw as [-> [_ Hw]].
      destruct cur as [|d cur']; [rewrite (Hl eq_refl _ _ eq_refl) in Sp; discriminate|].
      destruct r as [|d' r'].
      * rewrite (Ht [] " "%char eq_refl) in Sp; discriminate.
      * assert (Sd : is_space d' = false)
          by (simpl in Hw; destruct (is_space d'); [destruct Hw as [_ [N _]]; discriminate|reflexivity]).
        assert (J : joinl (split_aux [] (d' :: r')) = d' :: r').
        { apply IH; [constructor| |intros _ c0 r0 E; injection E as <- _; exact Sd|].
          - simpl in Hw |- *; rewrite Sd in Hw |- *; exact Hw.
          - intros r0 c0 E; apply (Ht (" "%char :: r0) c0); rewrite E; reflexivity. }
        destruct (split_aux [] (d' :: r')) as [|w L] eqn:S; [discriminate|].
        rewrite <- J; reflexivity.
    + rewrite (IH (c :: cur)); [simpl; rewrite <- app_assoc; reflexivity|constructor; auto
        |exact Hw|discriminate|].
      intros r0 c0 E; apply (Ht (c :: r0) c0); rewrite E; reflexivity.
Qed.

Lemma join_split_normalize x : join " "%string (py_split (normalize_text x)) = normalize_text x.
Proof.
  destruct (normalize_text_shape x) as [_ [W [L T]]].
  unfold py_split; rewrite join_map, split_aux_join; [| constructor|exact W| |exact T].
  - apply string_of_list_ascii_of_string.
  - intros _; exact L.
Qed.

Lemma map_keep (f : string -> string) (P : string -> bool) l :
  (forall w, In w l -> P w = true) ->
  map (fun w => if P w then w else f w) l = l.
Proof.
  induction l as [|w l IH]; intros H; simpl; [reflexivity|].
  rewrite (H w (or_introl eq_refl)), IH; [reflexivity|intros v Hv; apply H; right; exact Hv].
Qed.

(** [highlight_diff text ref] marks no word when every word of [text] is a
    word of [ref]: it is then [text]'s words joined by single spaces, and a
    normalised text highlighted against itself comes back unchanged.
    Against a reference without words, every word is marked. *)
Theorem highlight_diff_spec :
  (forall text ref, (forall w, In w (py_split text) -> In w (py_split ref)) ->
     highlight_diff text ref = join " "%string (py_split text)) /\
  (forall x, highlight_diff (normalize_text x) (normalize_text x) = normalize_text x) /\
  (forall text ref, py_split ref = [] ->
     highlight_diff text ref = join " "%string (map mark (py_split text))).
Proof.
  assert (A : forall text ref, (forall w, In w (py_split text) -> In w (py_split ref)) ->
            highlight_diff text ref = join " "%string (py_split text)).
  { intros text ref H; unfold highlight_diff; rewrite map_keep; [reflexivity|].
    intros w Hw; apply existsb_exists; exists w; split; [auto|apply String.eqb_refl]. }
  split; [exact A|split].
  - intros x; rewrite A by auto; apply join_split_normalize.
  - intros text ref E; unfold highlight_diff; rewrite E; reflexivity.
Qed.

End ShapeFacts.

Module DecisionExtra.
Import Decision DecisionFacts.
Local Open Scope string_scope.

Lemma pd_lt0 s f : (0 < f)%Q -> (((s - f) / f * 100 < 0)%Q <-> (s < f)%Q).
Proof.
  intros Hf; split; intros H.
  - destruct (Qlt_le_dec s f) as [L|L]; [exact L|exfalso].
    assert (A : (0 <= (s - f) / f)%Q).
    { apply Qle_shift_div_l; [exact Hf|].
      setoid_replace (0 * f)%Q with 0%Q by ring.
      apply (Qplus_le_l _ _ f); setoid_replace (s - f + f)%Q with s by ring.
      setoid_replace (0 + f)%Q with f by ring; exact L. }
    assert (B : (0 <= (s - f) / f * 100)%Q).
    { apply Qmult_le_0_compat; [exact A|apply Qle_bool_imp_le; reflexivity]. }
    exact (Qle_not_lt _ _ B H).
  - setoid_replace 0%Q with (0 * 100)%Q by ring.
    apply Qmult_lt_r; [reflexivity|].
    apply Qlt_shift_div_r; [exact Hf|].
    setoid_replace (0 * f)%Q with 0%Q by ring.
    apply (Qplus_lt_l _ _ f); setoid_replace (s - f + f)%Q with s by ring.
    setoid_replace (0 + f)%Q with f by ring; exact H.
Qed.

Lemma Qltb_pd s f : (0 < f)%Q -> Qltb ((s - f) / f * 100) 0 = Qltb s f.
Proof.
  intros Hf; destruct (Qltb s f) eqn:E.
  - apply Qltb_iff, pd_lt0; [exact Hf|]; apply Qltb_iff, E.
  - destruct (Qltb ((s - f) / f * 100) 0) eqn:E'; [|reflexivity].
    apply Qltb_iff, (pd_lt0 s f Hf), Qltb_iff in E'; congruence.
Qed.

Lemma Qle_bool_pd s f : (0 < f)%Q ->
  Qle_bool (Qabs ((s - f) / f * 100)) 5 = Qle_bool (Qabs (s - f) / f) (5 # 100).
Proof.
  intros Hf; destruct (Qle_bool (Qabs (s - f) / f) (5 # 100)) eqn:E.
  - apply Qle_bool_iff, range_iff, Qle_bool_iff; [exact Hf|exact E].
  - destruct (Qle_bool (Qabs ((s - f) / f * 100)) 5) eqn:E'; [|reflexivity].
    apply Qle_bool_iff, (range_iff s f Hf), Qle_bool_iff in E'; congruence.
Qed.

(** For a positive fair value, the conclusion and the colour class of the
    percent difference, both as decided by the source. *)
Lemma conclusion_pos s f : (0 < f)%Q ->
  conclusion (get_decision_conclusion s (Some f)) =
    (if Qltb s f then msg_below
     else if Qle_bool (Qabs (s - f) / f) (5 # 100) then msg_range
     else msg_review) /\
  diff_class (get_decision_conclusion s (Some f)) =
    (if Qltb s f then "diff-negative"
     else if Qle_bool (Qabs (s - f) / f) (5 # 100) then "diff-neutral"
     else "diff-positive").
Proof.
  intros Hf.
  assert (Z : ~ (f == 0)%Q).
  { intros E; rewrite E in Hf; exact (Qlt_irrefl _ Hf). }
  rewrite (get_some s f Z); cbv zeta.
  rewrite (Qltb_pd s f Hf), (Qle_bool_pd s f Hf).
  destruct (Qltb s f), (Qle_bool (Qabs (s - f) / f) (5 # 100));
    split; reflexivity.
Qed.

(** [get_decision_conclusion] (app.py, lines 126-152): for a positive fair
    value the colour class of the percent difference always agrees with the
    conclusion shown: "diff-negative" exactly for the below-average
    conclusion, "diff-neutral" exactly for the in-range one and
    "diff-positive" exactly for the needs-review one. *)
Theorem decision_class_agrees s f : (0 < f)%Q ->
  let c := get_decision_conclusion s (Some f) in
  (diff_class c = "diff-negative" <-> conclusion c = msg_below) /\
  (diff_class c = "diff-neutral" <-> conclusion c = msg_range) /\
  (diff_class c = "diff-positive" <-> conclusion c = msg_review).
Proof.
  intros Hf c; destruct (conclusion_pos s f Hf) as [C D]; subst c.
  rewrite C, D; unfold msg_below, msg_range, msg_review.
  destruct (Qltb s f), (Qle_bool (Qabs (s - f) / f) (5 # 100));
    repeat split; intros H; (reflexivity || discriminate H).
Qed.

(** [get_decision_conclusion] (app.py, lines 126-152): for a fixed positive
    fair value the verdict is monotone in the supplier price: if a price is
    judged below the historic average, so is every lower price, and if a
    price needs review, so does every higher price. *)
Theorem decision_monotone s1 s2 f : (0 < f)%Q -> (s1 <= s2)%Q ->
  (conclusion (get_decision_conclusion s2 (Some f)) = msg_below ->
   conclusion (get_decision_conclusion s1 (Some f)) = msg_below) /\
  (conclusion (get_decision_conclusion s1 (Some f)) = msg_review ->
   conclusion (get_decision_conclusion s2 (Some f)) = msg_review).
Proof.
  intros Hf Hs.
  destruct (conclusion_pos s1 f Hf) as [C1 _], (conclusion_pos s2 f Hf) as [C2 _].
  rewrite C1, C2; unfold msg_below, msg_range, msg_review.
  split; intros H.
  - destruct (Qltb s2 f) eqn:E2;
      [|destruct (Qle_bool (Qabs (s2 - f) / f) (5 # 100)); discriminate H].
    apply Qltb_iff in E2.
    assert (E1 : Qltb s1 f = true)
      by (apply Qltb_iff; exact (Qle_lt_trans _ _ _ Hs E2)).
    rewrite E1; reflexivity.
  - destruct (Qltb s1 f) eqn:E1; [discriminate H|].
    destruct (Qle_bool (Qabs (s1 - f) / f) (5 # 100)) eqn:R1; [discriminate H|].
    assert (L1 : (f <= s1)%Q)
      by (destruct (Qlt_le_dec s1 f) as [L|L];
          [apply Qltb_iff in L; congruence|exact L]).
    assert (L2 : (f <= s2)%Q) by exact (Qle_trans _ _ _ L1 Hs).
    rewrite (Qltb_false s2 f L2).
    destruct (Qle_bool (Qabs (s2 - f) / f) (5 # 100)) eqn:R2; [|reflexivity].
    exfalso; apply Qle_bool_iff in R2.
    assert (M : (Qabs (s1 - f) / f <= Qabs (s2 - f) / f)%Q).
    { unfold Qdiv; apply Qmult_le_compat_r;
        [|apply Qlt_le_weak, Qinv_lt_0_compat, Hf].
      rewrite !Qabs_pos.
      - apply Qplus_le_l; exact Hs.
      - apply (Qplus_le_l _ _ f); setoid_replace (s2 - f + f)%Q with s2 by ring;
          setoid_replace (0 + f)%Q with f by ring; exact L2.
      - apply (Qplus_le_l _ _ f); setoid_replace (s1 - f + f)%Q with s1 by ring;
          setoid_replace (0 + f)%Q with f by ring; exact L1. }
    assert (R : (Qabs (s1 - f) / f <= 5 # 100)%Q) by exact (Qle_trans _ _ _ M R2).
    apply Qle_bool_iff in R; congruence.
Qed.

Lemma decision_class_agrees_witness :
  (0 < 100)%Q /\
  (diff_class (get_decision_conclusion 104 (Some 100%Q)) = "diff-neutral" <->
   conclusion (get_decision_conclusion 104 (Some 100%Q)) = msg_range).
Proof.
  assert (H : (0 < 100)%Q) by reflexivity.
  split; [exact H|].
  exact (proj1 (proj2 (decision_class_agrees 104 100 H))).
Defined.

Lemma decision_monotone_witness :
  (0 < 100)%Q /\ (95 <= 110)%Q /\
  (conclusion (get_decision_conclusion 95 (Some 100%Q)) = msg_review ->
   conclusion (get_decision_conclusion 110 (Some 100%Q)) = msg_review).
Proof.
  assert (H : (0 < 100)%Q) by reflexivity.
  assert (H' : (95 <= 110)%Q) by (apply Qle_bool_imp_le; reflexivity).
  split; [exact H|split; [exact H'|]].
  exact (proj2 (decision_monotone 95 110 100 H H')).
Defined.

Lemma Qle_bool_negb_Qltb p : Qle_bool 0 p = negb (Qltb p 0).
Proof.
  destruct (Qltb p 0) eqn:E; simpl.
  - apply Qltb_iff in E; destruct (Qle_bool 0 p) eqn:F; [|reflexivity].
    apply Qle_bool_iff in F; exfalso; exact (Qlt_not_le _ _ E F).
  - apply Qle_bool_iff; apply Qnot_lt_le; intros L; apply Qltb_iff in L; congruence.
Qed.

(** [get_decision_conclusion] (app.py, lines 126-152): for a positive fair
    value the percentage shown starts with "-" when the supplier's hours are
    below the fair quote and with "+" otherwise, and ends with "%". *)
Theorem percent_display_sign s f : (0 < f)%Q ->
  exists body,
    percent_display (get_decision_conclusion s (Some f)) =
    String (if Qltb s f then "-" else "+") (body ++ "%").
Proof.
  intros Hf.
  assert (Z : ~ (f == 0)%Q).
  { intros E; rewrite E in Hf; exact (Qlt_irrefl _ Hf). }
  rewrite (get_some s f Z); cbv zeta.
  rewrite Qle_bool_negb_Qltb, (Qltb_pd s f Hf).
  destruct (Qltb s f) eqn:E; cbn [percent_display negb].
  - unfold fmt1; rewrite (Qltb_pd s f Hf), E.
    eexists; reflexivity.
  - destruct (Qle_bool (Qabs (s - f) / f) (5 # 100)); eexists; reflexivity.
Qed.

Lemma percent_display_sign_witness :
  (0 < 100)%Q /\
  exists body,
    percent_display (get_decision_conclusion 95 (Some 100%Q)) =
    String (if Qltb 95 100 then "-" else "+") (body ++ "%").
Proof.
  assert (H : (0 < 100)%Q) by reflexivity.
  split; [exact H|exact (percent_display_sign 95 100 H)].
Defined.

End DecisionExtra.

(** ** The rows of the reference table (lines 74-97) *)

Module TableExtra.
Import Chars Text Table ClusterFacts.

Lemma map_id_ext {A : Type} (f : A -> A) l : (forall x, f x = x) -> map f l = l.
Proof. intros H; induction l as [|x l IH]; simpl; [reflexivity|rewrite H, IH; reflexivity]. Qed.

Lemma build_table_rec ratio recs : map rec (build_table ratio recs) = recs.
Proof.
  unfold build_table; cbv zeta; rewrite map_map; apply map_id_ext.
  intros x; destruct (merged _ _); reflexivity.
Qed.

(** The fields of a row, read off the record it comes from. *)
Lemma build_table_In ratio recs r :
  In r (build_table ratio recs) ->
  let cl := clustering ratio (map key_of recs) in
  let hours := hours_table (map (fun y => (key_to_rep cl (key_of y), total_hours y)) recs) in
  exists x, In x recs /\ rec r = x /\
    norm_disc r = norm_disc_of (description x) /\
    norm_corr r = norm_corr_of (corrective_action x) /\
    combined_key r = key_of x /\
    cluster_key r = key_to_rep cl (key_of x) /\
    historic r = fst (merged hours (cluster_key r)) /\
    occurrences r = snd (merged hours (cluster_key r)) /\
    fair_quote r = option_map round2 (historic r).
Proof.
  unfold build_table; cbv zeta; intros H.
  apply in_map_iff in H as [x [<- Hx]]; exists x.
  destruct (merged _ _) as [m c] eqn:M; simpl; rewrite M; simpl.
  repeat split; auto.
Qed.

Lemma key_of_nonempty x : key_of x <> ""%string.
Proof. unfold key_of, combine_key; destruct (norm_disc_of _); discriminate. Qed.

Lemma in_members cl k : In k (members cl) <-> exists c, In c cl /\ In k (snd c).
Proof.
  unfold members; rewrite in_concat; split.
  - intros [l [Hl Hk]]; apply in_map_iff in Hl as [c [<- Hc]]; eauto.
  - intros [c [Hc Hk]]; exists (snd c); split; [apply in_map; exact Hc|exact Hk].
Qed.

(** The key of every record is clustered: [key_to_rep] sends it to a
    representative, itself the key of a record, which it sends to itself. *)
Lemma record_cluster ratio recs x :
  In x recs ->
  let cl := clustering ratio (map key_of recs) in
  exists y, In y recs /\ key_to_rep cl (key_of x) = Some (key_of y) /\
            key_to_rep cl (key_of y) = Some (key_of y).
Proof.
  intros Hx cl.
  destruct (clustering_cinv ratio (map key_of recs)) as [M [ND [HD _]]].
  fold cl in M, ND, HD.
  assert (K : In (key_of x) (members cl)).
  { apply M; split; [apply unique_In, in_map, Hx|apply key_of_nonempty]. }
  apply in_members in K as [c [Hc Hk]].
  destruct (HD c Hc) as [t Ht].
  assert (R : In (fst c) (members cl))
    by (apply in_members; exists c; split; [exact Hc|rewrite Ht; left; reflexivity]).
  apply M in R as [R _]; apply unique_In, in_map_iff in R as [y [Ey Hy]].
  exists y; split; [exact Hy|]; rewrite Ey; split.
  - apply key_to_rep_member with (c := c); assumption.
  - apply key_to_rep_member with (c := c);
      [assumption|assumption|rewrite Ht; left; reflexivity].
Qed.

(** Two rows with the same combined key have the same cluster key, and two
    rows with the same cluster key the same statistics. *)
Lemma rows_same_key ratio recs r1 r2 :
  In r1 (build_table ratio recs) -> In r2 (build_table ratio recs) ->
  (combined_key r1 = combined_key r2 -> cluster_key r1 = cluster_key r2) /\
  (cluster_key r1 = cluster_key r2 ->
   historic r1 = historic r2 /\ occurrences r1 = occurrences r2 /\
   fair_quote r1 = fair_quote r2).
Proof.
  intros H1 H2.
  destruct (build_table_In _ _ _ H1) as [x1 [_ [_ [_ [_ [K1 [C1 [S1 [O1 F1]]]]]]]]].
  destruct (build_table_In _ _ _ H2) as [x2 [_ [_ [_ [_ [K2 [C2 [S2 [O2 F2]]]]]]]]].
  split.
  - intros E; rewrite C1, C2, <- K1, <- K2, E; reflexivity.
  - intros E; rewrite F1, F2, S1, S2, O1, O2, E; auto.
Qed.

(** [build_table] (lines 74-97): the table has one row per record, in
    order; a row's combined key is its record's key; every row has a cluster
    key (never NaN), and that cluster key is the combined key of a row whose
    own cluster key it is (the representative's row); rows with the same
    combined key have the same cluster key, and rows with the same cluster
    key have the same 'Actual Historic Hours', 'Occurrences' and
    'Fair Quote (hrs)'. *)
Theorem build_table_clusters ratio recs :
  let tbl := build_table ratio recs in
  map rec tbl = recs /\
  (forall r, In r tbl -> combined_key r = key_of (rec r)) /\
  (forall r, In r tbl -> exists k, cluster_key r = Some k /\
     exists r', In r' tbl /\ combined_key r' = k /\ cluster_key r' = Some k) /\
  (forall r1 r2, In r1 tbl -> In r2 tbl ->
     combined_key r1 = combined_key r2 -> cluster_key r1 = cluster_key r2) /\
  (forall r1 r2, In r1 tbl -> In r2 tbl -> cluster_key r1 = cluster_key r2 ->
     historic r1 = historic r2 /\ occurrences r1 = occurrences r2 /\
     fair_quote r1 = fair_quote r2).
Proof.
  intros tbl; split; [apply build_table_rec|split; [|split; [|split]]].
  - intros r Hr; destruct (build_table_In _ _ _ Hr) as [x [_ [Ex [_ [_ [K _]]]]]].
    rewrite K, Ex; reflexivity.
  - intros r Hr; destruct (build_table_In _ _ _ Hr) as [x [Hx [_ [_ [_ [_ [C _]]]]]]].
    destruct (record_cluster ratio recs x Hx) as [y [Hy [Rx Ry]]].
    exists (key_of y); split; [rewrite C; exact Rx|].
    assert (I : In y (map rec tbl)) by (unfold tbl; rewrite build_table_rec; exact Hy).
    apply in_map_iff in I as [r' [Ey Hr']]; exists r'; split; [exact Hr'|].
    destruct (build_table_In _ _ _ Hr') as [y' [_ [Ey' [_ [_ [K' [C' _]]]]]]].
    assert (Y : y' = y) by congruence; subst y'.
    rewrite K', C', Ey; split; [reflexivity|exact Ry].
  - intros r1 r2 H1 H2; apply (rows_same_key _ _ _ _ H1 H2).
  - intros r1 r2 H1 H2; apply (rows_same_key _ _ _ _ H1 H2).
Qed.

End TableExtra.

(** ** The tiers of the query (lines 155-238) *)

Module MatchExtra.
Import Chars Text Difflib Decision Table Matcher DecisionFacts MatchFacts TableExtra.
Local Open Scope string_scope.

Lemma filter_map_swap {A B : Type} (P : B -> bool) (f : A -> B) l :
  filter P (map f l) = map f (filter (fun x => P (f x)) l).
Proof.
  induction l as [|x l IH]; simpl; [reflexivity|].
  destruct (P (f x)); simpl; rewrite IH; reflexivity.
Qed.

(** The EXACT branch: its conclusion is read off the first row with the
    query's key, in table order. *)
Lemma exact_branch sort_desc tbl disc corr supplier :
  disc <> "" -> corr <> "" ->
  (exists r, In r tbl /\ combined_key r = q_ci disc corr) ->
  exists r rest,
    filter (fun r => String.eqb (combined_key r) (q_ci disc corr)) tbl = r :: rest /\
    match_query sort_desc tbl disc corr supplier =
    Some (mk_outcome (Some EXACT) []
            (Some (get_decision_conclusion supplier (fair_quote r))) true).
Proof.
  intros Hd Hc [r0 [H0 K0]].
  assert (Ht : tbl <> []) by (intros E; rewrite E in H0; destruct H0).
  rewrite match_query_rows by assumption; cbv zeta.
  rewrite filter_map_swap; simpl.
  destruct (filter (fun r => String.eqb (combined_key r) (q_ci disc corr)) tbl)
    as [|r rest] eqn:F.
  - exfalso.
    assert (I : In r0 (filter (fun r => String.eqb (combined_key r) (q_ci disc corr)) tbl))
      by (apply filter_In; split; [exact H0|apply String.eqb_eq, K0]).
    rewrite F in I; destruct I.
  - exists r, rest; split; reflexivity.
Qed.

Section Sorting.
(** [sort_values(by='Overlap', ascending=False)], as in the tier lemmas. *)
Variable sort_desc : list (row * Q) -> list (row * Q).
Hypothesis sort_perm : forall l, Permutation (sort_desc l) l.
Hypothesis sort_sorted : forall l, Sorted desc (sort_desc l).


(** [match_query] (lines 155-174, 238-290), the WEAK tier: on a table with
    rows none of which has the query's combined key or an overlap of at
    least 55, the query shows one row of the table, one of highest overlap,
    with that overlap, and the decision is [get_decision_conclusion] of its
    fair quote; the run then stops with the [TypeError] of line 269. *)
Theorem match_query_weak_tier tbl disc corr supplier :
  disc <> "" -> corr <> "" -> tbl <> [] ->
  (forall r, In r tbl ->
     combined_key r <> q_ci disc corr /\ (q_overlap disc corr r < 55)%Q) ->
  exists r, In r tbl /\
    (forall r', In r' tbl -> (q_overlap disc corr r' <= q_overlap disc corr r)%Q) /\
    match_query sort_desc tbl disc corr supplier =
    Some (mk_outcome (Some WEAK) [(r, q_overlap disc corr r)]
            (Some (get_decision_conclusion supplier (fair_quote r))) true).
Proof.
  intros Hd Hc Ht H.
  rewrite match_query_rows by assumption; cbv zeta.
  rewrite (proj2 (exact_nil_iff tbl disc corr)) by (intros r Hr; apply H, Hr).
  rewrite (proj2 (candidates_nil_iff tbl disc corr))
    by (intros r Hr [L _]; apply (Qlt_not_le _ _ (proj2 (H r Hr)) L)).
  rewrite (proj2 (sort_nil_iff sort_desc sort_perm []) eq_refl); simpl.
  set (L := filter (fun p => Qltb (snd p) 55) (map (fun r => (r, q_overlap disc corr r)) tbl)).
  assert (InL : forall r, In r tbl -> In (r, q_overlap disc corr r) L).
  { intros r Hr; apply filter_In; split;
      [apply in_map_iff; exists r; split; [reflexivity|exact Hr]
      |apply Qltb_iff, H, Hr]. }
  destruct (sort_desc L) as [|p rest] eqn:S.
  - exfalso; apply (proj1 (sort_nil_iff sort_desc sort_perm L)) in S.
    destruct tbl as [|r0 tbl0]; [contradiction|].
    pose proof (InL r0 (or_introl eq_refl)) as I; rewrite S in I; destruct I.
  - assert (Pp : In p L) by (apply (Permutation_in _ (sort_perm L)); rewrite S; left; reflexivity).
    apply filter_In in Pp as [Pp _]; apply in_map_iff in Pp as [r [<- Hr]].
    exists r; split; [exact Hr|split; [|reflexivity]].
    intros r' Hr'.
    assert (I : In (r', q_overlap disc corr r') (sort_desc L))
      by (apply (Permutation_in _ (Permutation_sym (sort_perm L))), InL, Hr').
    rewrite S in I; destruct I as [E|I];
      [apply (f_equal fst) in E; simpl in E; subst r'; apply Qle_refl|].
    pose proof (sort_sorted L) as So; rewrite S in So.
    apply Sorted_StronglySorted in So;
      [|intros x y z H1 H2; unfold desc in *; eapply Qle_trans; eauto].
    apply StronglySorted_inv in So as [_ F]; rewrite Forall_forall in F.
    exact (F _ I).
Qed.

End Sorting.

(** The query repeating the two texts of a record of the reference table:
    its combined key is the record's. *)
Lemma q_ci_record x d c :
  description x = CStr d -> corrective_action x = CStr c -> q_ci d c = key_of x.
Proof. intros D C; unfold key_of, q_ci, q_nd, q_nc; rewrite D, C; reflexivity. Qed.

(** [match_query] on the table [build_table] makes (lines 74-198): a query
    that repeats the discrepancy and the corrective action of a record of
    the data selects the EXACT tier, and the conclusion drawn is
    [get_decision_conclusion] of the fair quote of that record's row (the
    first row with the key, [exact.iloc[0]], is in the same cluster); no
    row table is shown, the run stopping with the [TypeError] of line
    198. *)
Theorem query_record_roundtrip sort_desc ratio recs x d c supplier :
  In x recs -> description x = CStr d -> corrective_action x = CStr c ->
  d <> "" -> c <> "" ->
  exists o rx,
    match_query sort_desc (build_table ratio recs) d c supplier = Some o /\
    selected o = Some EXACT /\ shown o = [] /\ raises o = true /\
    In rx (build_table ratio recs) /\ rec rx = x /\
    decision o = Some (get_decision_conclusion supplier (fair_quote rx)).
Proof.
  intros Hx D C Hd Hc.
  pose proof (q_ci_record x d c D C) as Q.
  assert (I : In x (map rec (build_table ratio recs))) by (rewrite build_table_rec; exact Hx).
  apply in_map_iff in I as [rx [Ex Hrx]].
  assert (Krx : combined_key rx = q_ci d c).
  { destruct (build_table_In _ _ _ Hrx) as [x' [_ [E' [_ [_ [K _]]]]]].
    rewrite K, Q, <- E', Ex; reflexivity. }
  destruct (exact_branch sort_desc (build_table ratio recs) d c supplier Hd Hc
              (ex_intro _ rx (conj Hrx Krx))) as [r [rest [F M]]].
  (* the first row with the query's key has [rx]'s cluster, hence its stats *)
  assert (Fq : fair_quote r = fair_quote rx).
  { assert (H' : In r (r :: rest)) by (left; reflexivity).
    rewrite <- F in H'; apply filter_In in H' as [H' K'].
    apply String.eqb_eq in K'.
    destruct (rows_same_key _ _ _ _ H' Hrx) as [A B].
    apply B, A; congruence. }
  eexists; exists rx; split; [exact M|]; cbn [selected shown decision raises].
  split; [reflexivity|split; [reflexivity|split; [reflexivity|]]].
  split; [exact Hrx|split; [exact Ex|]].
  rewrite Fq; reflexivity.
Qed.


Lemma match_query_weak_tier_witness :
  "Door seal torn" <> "" /\ "Replaced door" <> "" /\ ref_table <> [] /\
  (forall r, In r ref_table ->
     combined_key r <> q_ci "Door seal torn" "Replaced door" /\
     (q_overlap "Door seal torn" "Replaced door" r < 55)%Q) /\
  exists r, In r ref_table /\
    (forall r', In r' ref_table ->
       (q_overlap "Door seal torn" "Replaced door" r' <=
        q_overlap "Door seal torn" "Replaced door" r)%Q) /\
    match_query isort ref_table "Door seal torn" "Replaced door" 11%Q =
    Some (mk_outcome (Some WEAK) [(r, q_overlap "Door seal torn" "Replaced door" r)]
            (Some (get_decision_conclusion 11%Q (fair_quote r))) true).
Proof.
  assert (N : ref_table <> []) by (vm_compute; discriminate).
  assert (H : forall r, In r ref_table ->
     combined_key r <> q_ci "Door seal torn" "Replaced door" /\
     (q_overlap "Door seal torn" "Replaced door" r < 55)%Q).
  { assert (B : forallb (fun r => negb (String.eqb (combined_key r)
                                          (q_ci "Door seal torn" "Replaced door")) &&
                                    Qltb (q_overlap "Door seal torn" "Replaced door" r) 55)
                        ref_table = true) by (vm_compute; reflexivity).
    intros r Hr; rewrite forallb_forall in B; specialize (B r Hr).
    apply andb_true_iff in B as [B1 B2]; apply negb_true_iff, String.eqb_neq in B1.
    apply Qltb_iff in B2; split; assumption. }
  split; [discriminate|split; [discriminate|split; [exact N|split; [exact H|]]]].
  apply (match_query_weak_tier isort isort_perm isort_sorted);
    [discriminate|discriminate|exact N|exact H].
Defined.

Lemma query_record_roundtrip_witness :
  let x := mk_record (CStr "Seal leaking") (CStr "Replaced seal") (Some 10%Q) in
  In x ref_records /\ description x = CStr "Seal leaking" /\
  corrective_action x = CStr "Replaced seal" /\
  "Seal leaking" <> "" /\ "Replaced seal" <> "" /\
  exists o rx,
    match_query isort (build_table (fun _ _ => 0%Z) ref_records)
      "Seal leaking" "Replaced seal" 11%Q = Some o /\
    selected o = Some EXACT /\ shown o = [] /\ raises o = true /\
    In rx (build_table (fun _ _ => 0%Z) ref_records) /\ rec rx = x /\
    decision o = Some (get_decision_conclusion 11%Q (fair_quote rx)).
Proof.
  intros x.
  assert (I : In x ref_records) by (left; reflexivity).
  split; [exact I|split; [reflexivity|split; [reflexivity|split; [discriminate|split; [discriminate|]]]]].
  apply (query_record_roundtrip isort (fun _ _ => 0%Z) ref_records x);
    [exact I|reflexivity|reflexivity|discriminate|discriminate].
Defined.

End MatchExtra.

(** ** Texts without a common word (lines 120-124) *)

Module DifflibExtra.
Import Chars Difflib DifflibFacts.

Lemma flm_rows_nomatch a b blo bhi :
  forall cnt i prev best,
  (forall i', i <= i' < i + cnt -> b2j b (tok_a a i') = []) ->
  flm_rows a b blo bhi cnt i prev best = best.
Proof.
  induction cnt as [|cnt IH]; intros i prev best H; cbn [flm_rows]; [reflexivity|].
  rewrite (H i) by lia; cbn [flm_row].
  apply IH; intros i' Hi; apply H; lia.
Qed.

(** No element of [a] equals one of [b]: no block matches. *)
Lemma matched_disjoint a b :
  (forall i j, i < List.length a -> j < List.length b -> tok_a a i <> tok_b b j) ->
  forall f, matched a b f 0 (List.length a) 0 (List.length b) = 0.
Proof.
  intros H [|f]; [reflexivity|]; cbn [matched]; unfold find_longest_match.
  rewrite flm_rows_nomatch.
  - cbn [ext_back Nat.sub].
    assert (X : forall g, ext_fwd a b g (List.length a) (List.length b) 0 0 0 = (0, 0, 0)).
    { intros [|g]; cbn [ext_fwd Nat.add]; [reflexivity|].
      destruct (0 <? List.length a) eqn:E1, (0 <? List.length b) eqn:E2,
        (String.eqb (tok_a a 0) (tok_b b 0)) eqn:E3; try reflexivity.
      exfalso; apply Nat.ltb_lt in E1, E2; apply String.eqb_eq in E3.
      exact (H 0 0 E1 E2 E3). }
    rewrite X; reflexivity.
  - intros i Hi; destruct (b2j b (tok_a a i)) as [|j js] eqn:E; [reflexivity|].
    assert (I : In j (b2j b (tok_a a i))) by (rewrite E; left; reflexivity).
    apply b2j_In in I as [_ [Hj Ej]].
    exfalso; apply (H i j); [lia|exact Hj|symmetry; exact Ej].
Qed.

(** [semantic_overlap] (app.py, lines 120-124): two texts that have no
    word in common have overlap 0, provided at least one of them has a word
    (two texts made only of whitespace have no word and overlap 100). *)
Theorem semantic_overlap_disjoint sa sb :
  (py_split sa ++ py_split sb <> [])%list ->
  (forall w, In w (py_split sa) -> ~ In w (py_split sb)) ->
  (semantic_overlap sa sb == 0)%Q.
Proof.
  intros NE D; unfold semantic_overlap.
  destruct (String.eqb sa "" || String.eqb sb "")%string; [reflexivity|].
  unfold ratio; rewrite matched_disjoint.
  - destruct (_ =? 0) eqn:T; [|reflexivity].
    exfalso; apply NE; apply Nat.eqb_eq, Nat.eq_add_0 in T as [T1 T2].
    apply length_zero_iff_nil in T1, T2; rewrite T1, T2; reflexivity.
  - intros i j Hi Hj E.
    apply (D (tok_a (py_split sa) i)); [apply nth_In, Hi|].
    rewrite E; apply nth_In, Hj.
Qed.

Lemma semantic_overlap_disjoint_witness :
  (py_split "Seal leaking" ++ py_split "Panel cracked" <> [])%list /\
  (forall w, In w (py_split "Seal leaking") -> ~ In w (py_split "Panel cracked")) /\
  (semantic_overlap "Seal leaking" "Panel cracked" == 0)%Q.
Proof.
  assert (N : (py_split "Seal leaking" ++ py_split "Panel cracked" <> [])%list)
    by (vm_compute; discriminate).
  assert (D : forall w, In w (py_split "Seal leaking") -> ~ In w (py_split "Panel cracked")).
  { assert (E1 : py_split "Seal leaking" = ["Seal"; "leaking"]%string) by (vm_compute; reflexivity).
    assert (E2 : py_split "Panel cracked" = ["Panel"; "cracked"]%string) by (vm_compute; reflexivity).
    rewrite E1, E2; intros w [<-|[<-|[]]] [E|[E|[]]]; discriminate E. }
  split; [exact N|split; [exact D|]].
  exact (semantic_overlap_disjoint _ _ N D).
Defined.

End DifflibExtra.

(** ** The reference marker (line 75) *)

Module RemoveRefExtra.
Import Chars Text Table ShapeFacts.

Definition marker : list ascii := list_ascii_of_string "(FOR REFERENCE ONLY)"%string.

Lemma is_prefix_length p s : is_prefix p s = true -> List.length p <= List.length s.
Proof.
  revert s; induction p as [|c p IH]; intros [|d s] H; simpl in *; try lia; try discriminate.
  apply andb_true_iff in H as [_ H]; apply IH in H; lia.
Qed.

Lemma is_prefix_app_long p t u :
  List.length p <= List.length t -> is_prefix p (t ++ u) = is_prefix p t.
Proof.
  revert t; induction p as [|c p IH]; intros [|d t] H; simpl in *; try lia; try reflexivity.
  rewrite IH by lia; reflexivity.
Qed.

Lemma is_prefix_nth p s i :
  is_prefix p s = true -> i < List.length p -> nth i s "0"%char = nth i p "0"%char.
Proof.
  revert s i; induction p as [|c p IH]; intros [|d s] i H Hi; simpl in *; try lia; try discriminate.
  apply andb_true_iff in H as [E H]; apply Ascii.eqb_eq in E.
  destruct i as [|i]; [symmetry; exact E|apply IH; [exact H|lia]].
Qed.

Lemma is_prefix_refl p u : is_prefix p (p ++ u) = true.
Proof. induction p as [|c p IH]; simpl; [reflexivity|rewrite Ascii.eqb_refl; exact IH]. Qed.

Lemma skipn_app_long {A : Type} n (t u : list A) :
  n <= List.length t -> skipn n (t ++ u) = skipn n t ++ u.
Proof. intros H; rewrite skipn_app; replace (n - List.length t) with 0 by lia; reflexivity. Qed.

(** With [old] non-empty, any fuel of at least the length of [s] gives the
    same result. *)
Lemma remove_all_fuel old : old <> [] ->
  forall n s m, List.length s <= n -> List.length s <= m ->
  remove_all n old s = remove_all m old s.
Proof.
  intros Ho; induction n as [|n IH]; intros s m Hn Hm.
  - destruct s; [destruct m; reflexivity|simpl in Hn; lia].
  - destruct s as [|c r]; [destruct m; reflexivity|].
    destruct m as [|m]; [simpl in Hm; lia|]; cbn [remove_all].
    destruct (is_prefix old (c :: r)) eqn:P.
    + apply IH; rewrite length_skipn; simpl in *; (destruct old; [congruence|simpl; lia]).
    + f_equal; apply IH; simpl in *; lia.
Qed.

Definition ra (old s : list ascii) : list ascii := remove_all (List.length s) old s.

(** The removal distributes over [t ++ u] when no occurrence of [old]
    starting in [t] reaches into [u]. *)
Lemma ra_app old : old <> [] ->
  forall k t u, List.length t <= k ->
  (forall v w, t = v ++ w -> w <> [] -> is_prefix old (w ++ u) = is_prefix old w) ->
  ra old (t ++ u) = ra old t ++ ra old u.
Proof.
  intros Ho; induction k as [|k IH]; intros t u Hk H.
  - destruct t; [reflexivity|simpl in Hk; lia].
  - destruct t as [|c r]; [reflexivity|].
    unfold ra; rewrite length_app; cbn [List.length Nat.add remove_all app].
    assert (P0 := H [] (c :: r) eq_refl ltac:(discriminate)); cbn [app] in P0.
    rewrite P0.
    destruct (is_prefix old (c :: r)) eqn:P.
    + pose proof (is_prefix_length _ _ P) as L.
      change (c :: (r ++ u)) with ((c :: r) ++ u); rewrite skipn_app_long by exact L.
      set (r' := skipn (List.length old) (c :: r)).
      assert (Lr : List.length r' < S (List.length r))
        by (unfold r'; rewrite length_skipn; simpl in *; destruct old; [congruence|simpl; lia]).
      rewrite (remove_all_fuel old Ho _ (r' ++ u) (List.length (r' ++ u)))
        by (rewrite length_app; lia).
      rewrite (remove_all_fuel old Ho _ r' (List.length r')) by lia.
      apply (IH r' u); [simpl in Hk; lia|].
      intros v w E Hw; apply (H (firstn (List.length old) (c :: r) ++ v) w); [|exact Hw].
      rewrite <- app_assoc, <- E; unfold r'; symmetry; apply firstn_skipn.
    + cbn [app]; f_equal.
      rewrite <- length_app; fold (ra old (r ++ u)) (ra old r).
      apply (IH r u); [simpl in Hk; lia|].
      intros v w E Hw; apply (H (c :: v) w); [rewrite E; reflexivity|exact Hw].
Qed.

(** An occurrence at the start is removed. *)
Lemma ra_prefix old u : old <> [] -> ra old (old ++ u) = ra old u.
Proof.
  destruct old as [|c o]; [congruence|]; intros _.
  unfold ra; rewrite length_app; cbn [List.length Nat.add remove_all].
  assert (Sk : skipn (List.length (c :: o)) ((c :: o) ++ u) = u)
    by (rewrite skipn_app, skipn_all, Nat.sub_diag; reflexivity).
  cbn [List.length] in Sk; rewrite Sk, is_prefix_refl; cbn [app].
  apply remove_all_fuel; [discriminate|lia|lia].
Qed.

Lemma marker_paren i : 1 <= i < 20 -> nth i marker "0"%char <> "("%char.
Proof.
  intros Hi.
  do 20 (destruct i as [|i]; [lia || (vm_compute; intros E; discriminate E)|]); lia.
Qed.

(** The marker has no border: no occurrence of it starts in a proper
    non-empty part before another occurrence. *)
Lemma marker_no_straddle w s :
  w <> [] -> is_prefix marker (w ++ marker ++ s) = is_prefix marker w.
Proof.
  intros Hw.
  destruct (Nat.le_gt_cases (List.length marker) (List.length w)) as [L|L].
  - apply is_prefix_app_long, L.
  - destruct (is_prefix marker w) eqn:P;
      [apply is_prefix_length in P; lia|].
    destruct (is_prefix marker (w ++ marker ++ s)) eqn:Q; [|reflexivity].
    exfalso; apply (marker_paren (List.length w)).
    + split; [destruct w; [congruence|simpl; lia]|exact L].
    + rewrite <- (is_prefix_nth _ _ _ Q L), app_nth2 by lia.
      rewrite Nat.sub_diag; reflexivity.
Qed.

Lemma list_ascii_of_string_app s1 s2 :
  list_ascii_of_string (s1 ++ s2)%string = list_ascii_of_string s1 ++ list_ascii_of_string s2.
Proof. induction s1 as [|c s1 IH]; simpl; [reflexivity|rewrite IH; reflexivity]. Qed.

Lemma remove_ref_ra s : remove_ref s = string_of_list_ascii (ra marker (list_ascii_of_string s)).
Proof. reflexivity. Qed.

(** [remove_ref] (line 75, [str.replace("(FOR REFERENCE ONLY)", "")]):
    an occurrence of the marker is removed and splits the text, the parts
    before and after it being treated independently; a text in which the
    marker does not occur is left unchanged. *)
Theorem remove_ref_marker :
  (forall s1 s2,
     remove_ref (s1 ++ "(FOR REFERENCE ONLY)" ++ s2)%string =
     (remove_ref s1 ++ remove_ref s2)%string) /\
  (forall s, (forall v w, list_ascii_of_string s = v ++ w -> is_prefix marker w = false) ->
     remove_ref s = s).
Proof.
  assert (Hm : marker <> []) by discriminate.
  split.
  - intros s1 s2; rewrite !remove_ref_ra, !list_ascii_of_string_app.
    change (list_ascii_of_string "(FOR REFERENCE ONLY)"%string) with marker.
    rewrite (ra_app marker Hm (List.length (list_ascii_of_string s1))); [|lia|].
    + rewrite string_of_list_ascii_app; f_equal.
      rewrite ra_prefix by exact Hm; reflexivity.
    + intros v w _ Hw; apply marker_no_straddle, Hw.
  - intros s H; rewrite remove_ref_ra.
    assert (G : forall l v, list_ascii_of_string s = v ++ l -> ra marker l = l).
    { induction l as [|c l IH]; intros v E; [reflexivity|].
      unfold ra; cbn [List.length remove_all].
      rewrite (H v (c :: l) E); f_equal.
      apply (IH (v ++ [c])); rewrite E, <- app_assoc; reflexivity. }
    rewrite (G _ [] eq_refl); apply string_of_list_ascii_of_string.
Qed.

End RemoveRefExtra.
